(** * The credential and session store of the libsignal protocol demo

    A shallow embedding of [src/store.ts]: the in-memory
    [SignalProtocolStore] handed to the libsignal library, its shape
    checks, and the byte-to-string codec it compares identity keys with.

    - JavaScript values are an inductive type [JsValue]; the [_store] map
      is a [gmap string JsValue].
    - A method is a function from the store to a completion (a returned
      value or a thrown [Error]) and the store it leaves behind: a write
      made before a [throw] stays made.
    - The [async] methods run to completion without suspending, so a
      rejected promise is the thrown completion.
    - Numbers are the integers (registration ids and key ids); doubles
      that are not integers, and NaN, are outside the model. Strings are
      sequences of code units below 256. *)

From Stdlib Require Import ZArith Lia Strings.Byte Strings.Ascii.
From stdpp Require Import gmap strings list fin_maps pretty.
From Equations Require Import Equations.

(** ** JavaScript values *)

Abbreviation ArrayBuffer := (list byte).

#[global] Instance byte_eq_dec : EqDecision byte := Byte.byte_eq_dec.

#[warnings="-register-all"]
Inductive JsValue : Type :=
| JUndefined
| JNull
| JBoolean (b : bool)
| JNumber (n : Z)
| JString (s : string)
| JArrayBuffer (bytes : ArrayBuffer)
| JObject (props : list (string * JsValue)).

(** An argument whose TypeScript type is [A] but which the code checks
    against [null] and [undefined] at run time. *)
Inductive Nullable (A : Type) : Type :=
| Null
| Undefined
| Present (a : A).
Arguments Null {A}.
Arguments Undefined {A}.
Arguments Present {A} a.

Definition ofNullable {A} (inj : A -> JsValue) (x : Nullable A) : JsValue :=
  match x with
  | Null => JNull
  | Undefined => JUndefined
  | Present a => inj a
  end.

(** [v == null] *)
Definition isNullish (v : JsValue) : bool :=
  match v with
  | JUndefined | JNull => true
  | _ => false
  end.

(** ToBoolean: [!!v] *)
Definition truthy (v : JsValue) : bool :=
  match v with
  | JUndefined | JNull => false
  | JBoolean b => b
  | JNumber n => negb (n =? 0)%Z
  | JString s => negb (String.eqb s "")
  | JArrayBuffer _ | JObject _ => true
  end.

Definition typeof (v : JsValue) : string :=
  match v with
  | JUndefined => "undefined"
  | JNull => "object"
  | JBoolean _ => "boolean"
  | JNumber _ => "number"
  | JString _ => "string"
  | JArrayBuffer _ | JObject _ => "object"
  end.

Fixpoint lookupProp (p : string) (props : list (string * JsValue)) : option JsValue :=
  match props with
  | [] => None
  | (q, v) :: rest => if String.eqb p q then Some v else lookupProp p rest
  end.

(** [v.p] for the property names the shape checks read ([pubKey],
    [privKey], [keyId], [keyPair], [signature]); every read in the source
    is behind a [typeof v === "object"] test on a truthy [v]. *)
Definition getProp (v : JsValue) (p : string) : JsValue :=
  match v with
  | JObject props => default JUndefined (lookupProp p props)
  | _ => JUndefined
  end.

(** [p in v], read only behind the same test. *)
Definition hasProp (p : string) (v : JsValue) : bool :=
  match v with
  | JObject props => bool_decide (is_Some (lookupProp p props))
  | JArrayBuffer _ => String.eqb p "byteLength"
  | _ => false
  end.

Definition instanceofArrayBuffer (v : JsValue) : bool :=
  match v with
  | JArrayBuffer _ => true
  | _ => false
  end.

(** String(v), as a template literal interpolates a value; a number in
    decimal digits (JavaScript turns to exponent notation from 1e21 on). *)
Definition toString (v : JsValue) : string :=
  match v with
  | JUndefined => "undefined"
  | JNull => "null"
  | JBoolean b => if b then "true" else "false"
  | JNumber n => pretty n
  | JString s => s
  | JArrayBuffer _ => "[object ArrayBuffer]"
  | JObject _ => "[object Object]"
  end.

(** [prefix + key] and [`${prefix}${key}`] for a key that may be null. *)
Definition keyToString (k : Nullable string) : string :=
  toString (ofNullable JString k).

(** ** Shape checks *)

Definition isArrayBuffer (thing : JsValue) : bool :=
  truthy thing
  && String.eqb (typeof thing) "object"
  && hasProp "byteLength" thing
  && instanceofArrayBuffer thing.

Definition isKeyPairType (kp : JsValue) : bool :=
  if negb (truthy kp) || negb (String.eqb (typeof kp) "object") then false
  else isArrayBuffer (getProp kp "privKey") && isArrayBuffer (getProp kp "pubKey").

Definition isPreKeyType (pk : JsValue) : bool :=
  if negb (truthy pk) || negb (String.eqb (typeof pk) "object") then false
  else String.eqb (typeof (getProp pk "keyId")) "number"
       && isKeyPairType (getProp pk "keyPair").

Definition isSignedPreKeyType (spk : JsValue) : bool :=
  if negb (truthy spk) || negb (String.eqb (typeof spk) "object") then false
  else isArrayBuffer (getProp spk "signature") && isPreKeyType spk.

(** The typed records of the source and the objects they are at run time. *)
Record KeyPairType : Type := { pubKey : ArrayBuffer; privKey : ArrayBuffer }.

Definition ofKeyPair (kp : KeyPairType) : JsValue :=
  JObject [("pubKey", JArrayBuffer (pubKey kp)); ("privKey", JArrayBuffer (privKey kp))].

(** ** The byte-to-string codec *)

(** [String.fromCharCode(...codes)] on bytes: one code unit per byte. *)
Fixpoint fromCharCode (codes : list byte) : string :=
  match codes with
  | [] => ""
  | c :: rest => String (ascii_of_byte c) (fromCharCode rest)
  end.

(** [s.charCodeAt(i)], [None] past the end (where JavaScript gives NaN). *)
Definition charCodeAt (s : string) (i : nat) : option byte :=
  byte_of_ascii <$> String.get i s.

(** The code of every character of [s], in order. *)
Fixpoint charCodes (s : string) : list byte :=
  match s with
  | EmptyString => []
  | String a rest => byte_of_ascii a :: charCodes rest
  end.

(** [arr.slice(from, to)] for [from <= to]. *)
Definition slice {A} (arr : list A) (from to : nat) : list A :=
  take (to - from) (drop from arr).

(** [parts.join("")] *)
Definition join (parts : list string) : string :=
  foldr String.append "" parts.

Definition chunkSize : nat := 1024.

(** The [for (let i = 0; i < arr.length; i += chunkSize)] loop, from its
    state [(i, parts)]. *)
Equations? uint8ArrayToString_loop (arr : list byte) (i : nat) (parts : list string)
  : list string by wf (length arr - i) lt :=
  uint8ArrayToString_loop arr i parts with decide (i < length arr) := {
    | left _ =>
        let chunk := slice arr i (i + chunkSize) in
        uint8ArrayToString_loop arr (i + chunkSize) (parts ++ [fromCharCode chunk]);
    | right _ => parts }.
Proof. unfold chunkSize. lia. Qed.

Definition uint8ArrayToString (arr : list byte) : string :=
  if decide (length arr = 0) then ""
  else join (uint8ArrayToString_loop arr 0 []).

(** [new Uint8Array(b)] where [b] is a buffer (its bytes), [null] or
    [undefined] (no bytes); the source passes the value it has checked
    with [isArrayBuffer] or the [ArrayBuffer] argument of its caller. *)
Definition newUint8Array (b : JsValue) : list byte :=
  match b with
  | JArrayBuffer bytes => bytes
  | _ => []
  end.

Definition arrayBufferToString (b : JsValue) : string :=
  uint8ArrayToString (newUint8Array b).

(** An [ArrayBuffer] argument as the value it is at run time. *)
Definition bufferArg (b : Nullable ArrayBuffer) : JsValue :=
  ofNullable JArrayBuffer b.

(** ** Completions and the store monad *)

Record Error : Type := { message : string }.

Inductive Completion (A : Type) : Type :=
| Return (a : A)
| Throw (e : Error).
Arguments Return {A} a.
Arguments Throw {A} e.

(** The contents of [this._store]. *)
Abbreviation Store := (gmap string JsValue).

Definition M (A : Type) : Type := Store -> Completion A * Store.

Definition ret {A} (a : A) : M A := fun st => (Return a, st).

Definition throw {A} (msg : string) : M A := fun st => (Throw {| message := msg |}, st).

Definition bind {A B} (c : M A) (k : A -> M B) : M B :=
  fun st =>
    match c st with
    | (Return a, st') => k a st'
    | (Throw e, st') => (Throw e, st')
    end.

Definition gets {A} (f : Store -> A) : M A := fun st => (Return (f st), st).

Definition modify (f : Store -> Store) : M unit := fun st => (Return tt, f st).

(** A pure call that may throw, made from a method. *)
Definition lift {A} (c : Completion A) : M A := fun st => (c, st).

Declare Scope store_scope.
Delimit Scope store_scope with store.
Notation "'let*' x ':=' c 'in' k" := (bind c (fun x => k))
  (at level 10, x pattern, c at level 100, k at level 200) : store_scope.
Notation "c ';;' k" := (bind c (fun _ => k))
  (at level 100, k at level 200, right associativity) : store_scope.
Local Open Scope store_scope.

(** The spec's taxonomy of the errors the store throws, by the message of
    the [throw] site. *)
Definition InvalidArgument (e : Error) : Prop :=
  message e = "Key cannot be null or undefined"
  ∨ message e = "Key and value cannot be null or undefined".

(** [s.startsWith(searchString)] *)
Definition startsWith (s searchString : string) : bool :=
  String.prefix searchString s.

(** The messages of the [throw]s of the methods that find a stored value
    of the wrong shape; the message of [isTrustedIdentity] goes on with the
    value and the identifier. *)
Definition CorruptState (e : Error) : Prop :=
  startsWith (message e) "Stored identity key has invalid format" = true
  ∨ message e = "Stored registration ID is not a number"
  ∨ message e = "Stored pre-key has invalid format"
  ∨ message e = "Session record must be a string"
  ∨ message e = "Stored signed pre-key has invalid format"
  ∨ message e = "Existing identity key has invalid format".

(** ** The store *)

Module STORE_PREFIX.
Definition PREKEY : string := "Sylens-KeypreKey".
Definition SIGNED_KEY : string := "Sylens-KeysignedKey".
Definition IDENTITY : string := "identityKey".
Definition SESSION : string := "session".
End STORE_PREFIX.

(** [new SignalProtocolStore()] *)
Definition newStore : Store := ∅.

(** [validateKey] and [validateKeyValue] return nothing in the source; here
    they hand back the key they found not to be null. *)
Definition validateKey (key : Nullable string) : M string :=
  match key with
  | Present k => ret k
  | Null | Undefined => throw "Key cannot be null or undefined"
  end.

Definition validateKeyValue (key : Nullable string) (value : JsValue) : M string :=
  match key with
  | Present k =>
      if isNullish value then throw "Key and value cannot be null or undefined"
      else ret k
  | Null | Undefined => throw "Key and value cannot be null or undefined"
  end.

(** [Map.prototype.has] and [Map.prototype.get] *)
Definition mapHas (st : Store) (k : string) : bool := bool_decide (is_Some (st !! k)).
Definition mapGet (st : Store) (k : string) : JsValue := default JUndefined (st !! k).

Definition get (key : Nullable string) (defaultValue : JsValue) : M JsValue :=
  let* k := validateKey key in
  gets (fun st => if mapHas st k then mapGet st k else defaultValue).

Definition remove (key : Nullable string) : M unit :=
  let* k := validateKey key in
  modify (delete k).

Definition put (key : Nullable string) (value : JsValue) : M unit :=
  let* k := validateKeyValue key value in
  modify (<[k := value]>).

(** A key id, [string | number]. *)
Inductive KeyId : Type :=
| KeyIdNumber (n : Z)
| KeyIdString (s : string).

Definition keyIdToString (keyId : KeyId) : string :=
  match keyId with
  | KeyIdNumber n => toString (JNumber n)
  | KeyIdString s => toString (JString s)
  end.

Inductive Direction : Type := SENDING | RECEIVING.

Definition getIdentityKeyPair : M JsValue :=
  let* kp := get (Present STORE_PREFIX.IDENTITY) JUndefined in
  if negb (truthy kp) then ret JUndefined
  else if isKeyPairType kp then ret kp
  else throw "Stored identity key has invalid format".

Definition getLocalRegistrationId : M JsValue :=
  let* rid := get (Present "registrationId") JUndefined in
  if String.eqb (typeof rid) "number" || String.eqb (typeof rid) "undefined" then ret rid
  else throw "Stored registration ID is not a number".

Definition isTrustedIdentity (identifier : Nullable string)
    (identityKey : Nullable ArrayBuffer) (_direction : Direction) : M bool :=
  remove (Present (STORE_PREFIX.IDENTITY +:+ keyToString identifier)) ;;
  let* id := validateKey identifier in
  let* trusted := get (Present (STORE_PREFIX.IDENTITY +:+ id)) JUndefined in
  if negb (truthy trusted) then ret true
  else if negb (isArrayBuffer trusted) then
    throw ("Stored identity key has invalid format " +:+ toString trusted +:+ " | " +:+ id)
  else ret (String.eqb (arrayBufferToString (bufferArg identityKey)) (arrayBufferToString trusted)).

Definition loadPreKey (keyId : KeyId) : M JsValue :=
  let* res := get (Present (STORE_PREFIX.PREKEY +:+ keyIdToString keyId)) JUndefined in
  if negb (truthy res) then ret JUndefined
  else if isKeyPairType res then ret res
  else throw "Stored pre-key has invalid format".

Definition loadSession (identifier : string) : M JsValue :=
  let* rec := get (Present (STORE_PREFIX.SESSION +:+ identifier)) JUndefined in
  if String.eqb (typeof rec) "string" || String.eqb (typeof rec) "undefined" then ret rec
  else throw "Session record must be a string".

Definition loadSignedPreKey (keyId : KeyId) : M JsValue :=
  let* res := get (Present (STORE_PREFIX.SIGNED_KEY +:+ keyIdToString keyId)) JUndefined in
  if negb (truthy res) then ret JUndefined
  else if isKeyPairType res then ret res
  else throw "Stored signed pre-key has invalid format".

Definition removePreKey (keyId : KeyId) : M unit :=
  remove (Present (STORE_PREFIX.PREKEY +:+ keyIdToString keyId)).

Definition storeSession (identifier : string) (record : JsValue) : M unit :=
  put (Present (STORE_PREFIX.SESSION +:+ identifier)) record.

Definition loadIdentityKey (identifier : Nullable string) : M JsValue :=
  let* id := validateKey identifier in
  let* key := get (Present (STORE_PREFIX.IDENTITY +:+ id)) JUndefined in
  if negb (truthy key) then ret JUndefined
  else if isArrayBuffer key then ret key
  else throw "Stored identity key has invalid format".

Definition storePreKey (keyId : KeyId) (keyPair : JsValue) : M unit :=
  put (Present (STORE_PREFIX.PREKEY +:+ keyIdToString keyId)) keyPair.

Definition storeSignedPreKey (keyId : KeyId) (keyPair : JsValue) : M unit :=
  put (Present (STORE_PREFIX.SIGNED_KEY +:+ keyIdToString keyId)) keyPair.

Definition removeSignedPreKey (keyId : KeyId) : M unit :=
  remove (Present (STORE_PREFIX.SIGNED_KEY +:+ keyIdToString keyId)).

Definition removeSession (identifier : string) : M unit :=
  remove (Present (STORE_PREFIX.SESSION +:+ identifier)).

(** The [for (const [key] of this._store)] loop, over the entries the map
    has when the loop starts: deleting the entry being visited takes
    nothing away from the entries still to come. *)
Definition removeAllSessions (identifier : string) : M unit :=
  let sessionPrefix := STORE_PREFIX.SESSION +:+ identifier in
  modify (fun st =>
    foldl (fun m entry => if startsWith entry.1 sessionPrefix then delete entry.1 m else m)
          st (map_to_list st)).

(** [saveIdentity] parses its identifier with the libsignal library's
    [SignalProtocolAddress.fromString], which is not part of this
    repository: the address type, the parser (which may throw) and
    [getName] are parameters. [console.log] writes nothing to the store. *)
Section SaveIdentity.
Context {SignalProtocolAddress : Type}.
Variable fromString : string -> Completion SignalProtocolAddress.
Variable getName : SignalProtocolAddress -> string.

Definition saveIdentity (identifier : Nullable string)
    (identityKey : Nullable ArrayBuffer) : M bool :=
  let* id := validateKeyValue identifier (bufferArg identityKey) in
  let* address := lift (fromString id) in
  let* existing := get (Present (STORE_PREFIX.IDENTITY +:+ getName address)) JUndefined in
  if truthy existing && negb (isArrayBuffer existing) then
    throw "Existing identity key has invalid format"
  else
    put (Present (STORE_PREFIX.IDENTITY +:+ getName address))
        (bufferArg identityKey) ;;
    ret (truthy existing
         && negb (String.eqb (arrayBufferToString (bufferArg identityKey))
                             (arrayBufferToString existing))).
End SaveIdentity.

(** ** Outcomes *)

(** The call threw an error of the given kind. *)
Definition failsWith {A} (kind : Error → Prop) (r : Completion A * Store) : Prop :=
  ∃ e, r.1 = Throw e ∧ kind e.

Definition isNullKey (key : Nullable string) : Prop :=
  key = Null ∨ key = Undefined.

(** What the spec asks of a typed read: a value that is present under
    the read's key and fails its shape check makes the read fail with
    [CorruptState]. *)
Definition rejectsMalformed (read : M JsValue) (key : string) (shape : JsValue → bool) : Prop :=
  ∀ (st : Store) (v : JsValue),
    st !! key = Some v → shape v = false → failsWith CorruptState (read st).

(** The shape checks of the reads that test with [typeof]. *)
Definition isNumber (v : JsValue) : bool := String.eqb (typeof v) "number".
Definition isString (v : JsValue) : bool := String.eqb (typeof v) "string".

(** The entry of a peer's trusted identity key is as [saveIdentity] writes
    it: nothing, or a byte buffer. *)
Definition identityEntryTyped (st : Store) (key : string) : Prop :=
  st !! key = None ∨ ∃ recorded : ArrayBuffer, st !! key = Some (JArrayBuffer recorded).

(** ** Addresses for the examples

    The library's addresses print as [name.deviceId]. The examples below
    run [saveIdentity] with a parser that splits such a string at its
    first dot and throws when there is none. *)

Record ExampleAddress : Type := { addressName : string; addressDevice : string }.

Fixpoint splitAtDot (s : string) : option (string * string) :=
  match s with
  | EmptyString => None
  | String a rest =>
      if Ascii.eqb a "." then Some (EmptyString, rest)
      else match splitAtDot rest with
           | Some (name, device) => Some (String a name, device)
           | None => None
           end
  end.

Definition exampleFromString (s : string) : Completion ExampleAddress :=
  match splitAtDot s with
  | Some (name, device) => Return {| addressName := name; addressDevice := device |}
  | None => Throw {| message := "Invalid SignalProtocolAddress string: " +:+ s |}
  end.

Definition exampleBytes (codes : list nat) : ArrayBuffer :=
  (λ n, default Byte.x00 (Byte.of_nat n)) <$> codes.

(** ** The orchestration layer ([src/index-v3.ts], [src/index-v1.ts]) *)

(** [PreKeyBundle], with the fields of its two nested objects named after
    the object they belong to. *)
Record BundlePreKey : Type := {
  preKey_keyId : Z;
  preKey_keyPair : KeyPairType
}.

Record BundleSignedPreKey : Type := {
  signedPreKey_keyId : Z;
  signedPreKey_keyPair : KeyPairType;
  signedPreKey_signature : ArrayBuffer
}.

Record PreKeyBundle : Type := {
  identityKeyPair : KeyPairType;
  registrationId : Z;
  preKey : BundlePreKey;
  signedPreKey : BundleSignedPreKey
}.

(** [SignalStoreManager.initialize], which is [initializeStore] in
    [index-v1.ts]; each object literal [{pubKey: ..., privKey: ...}] is
    [ofKeyPair] of the pair it copies. *)
Definition initialize (ourBundle : PreKeyBundle) : M unit :=
  put (Present "identityKey") (ofKeyPair (identityKeyPair ourBundle)) ;;
  put (Present "registrationId") (JNumber (registrationId ourBundle)) ;;
  storePreKey (KeyIdNumber (preKey_keyId (preKey ourBundle)))
    (ofKeyPair (preKey_keyPair (preKey ourBundle))) ;;
  storeSignedPreKey (KeyIdNumber (signedPreKey_keyId (signedPreKey ourBundle)))
    (ofKeyPair (signedPreKey_keyPair (signedPreKey ourBundle))).

(** A received message, [{ type: number; body: ArrayBuffer }]. *)
Record Message : Type := { type : Z; body : ArrayBuffer }.

(** [SignalMessageManager.decode], which is [decodeMessage] in
    [index-v1.ts]. The two decrypting methods of the library's
    [SessionCipher] (which work on the store) and the platform's
    [TextDecoder] are parameters. The [catch] logs the error and throws
    it again. *)
Section Decode.
Variable decryptPreKeyWhisperMessage : ArrayBuffer -> M ArrayBuffer.
Variable decryptWhisperMessage : ArrayBuffer -> M ArrayBuffer.
Variable textDecode : list byte -> string.

Definition decode (message : Message) : M string :=
  let* plaintext :=
    if (type message =? 3)%Z then decryptPreKeyWhisperMessage (body message)
    else if (type message =? 1)%Z then decryptWhisperMessage (body message)
    else throw ("Unknown message type: " +:+ toString (JNumber (type message))) in
  ret (textDecode (newUint8Array (JArrayBuffer plaintext))).
End Decode.

(** ** Store invariant *)

(** No entry of the store holds [null] or [undefined]. *)
Definition noNullishEntries (st : Store) : Prop :=
  ∀ (k : string) (v : JsValue), st !! k = Some v → isNullish v = false.

(** The objects of the interfaces [PreKeyType] and [SignedPreKeyType]. *)
Definition ofPreKey (pk : BundlePreKey) : JsValue :=
  JObject [("keyId", JNumber (preKey_keyId pk)); ("keyPair", ofKeyPair (preKey_keyPair pk))].

Definition ofSignedPreKey (spk : BundleSignedPreKey) : JsValue :=
  JObject [("keyId", JNumber (signedPreKey_keyId spk));
           ("keyPair", ofKeyPair (signedPreKey_keyPair spk));
           ("signature", JArrayBuffer (signedPreKey_signature spk))].

(** * Properties *)

(** ** The codec *)

Lemma string_app_cons (a : ascii) (s t : string) :
  String a s +:+ t = String a (s +:+ t).
Proof. reflexivity. Qed.

Lemma string_app_assoc (s1 s2 s3 : string) : (s1 +:+ s2) +:+ s3 = s1 +:+ (s2 +:+ s3).
Proof.
  induction s1 as [|a s1 IH]; [done |].
  rewrite !string_app_cons. by f_equal.
Qed.

Lemma string_app_empty_r (s : string) : s +:+ "" = s.
Proof.
  induction s as [|a s IH]; [done |].
  rewrite string_app_cons. by f_equal.
Qed.

Lemma fromCharCode_app (l1 l2 : list byte) :
  fromCharCode (l1 ++ l2) = fromCharCode l1 +:+ fromCharCode l2.
Proof.
  induction l1 as [|c l1 IH]; [done |].
  cbn [app fromCharCode]. rewrite string_app_cons. by f_equal.
Qed.

Lemma join_app (ps qs : list string) : join (ps ++ qs) = join ps +:+ join qs.
Proof.
  unfold join. induction ps as [|p ps IH]; [done |].
  cbn [foldr app]. rewrite IH. symmetry. apply string_app_assoc.
Qed.

Lemma slice_drop (arr : list byte) (i n : nat) :
  slice arr i (i + n) ++ drop (i + n) arr = drop i arr.
Proof.
  unfold slice. replace (i + n - i) with n by lia.
  rewrite <- (take_drop n (drop i arr)) at 2.
  by rewrite drop_drop.
Qed.

(** The loop appends to what is joined so far the characters of the bytes
    from [i] on. *)
Lemma uint8ArrayToString_loop_join (arr : list byte) (i : nat) (parts : list string) :
  join (uint8ArrayToString_loop arr i parts) = join parts +:+ fromCharCode (drop i arr).
Proof.
  funelim (uint8ArrayToString_loop arr i parts).
  - rewrite H. rewrite join_app, string_app_assoc. f_equal.
    unfold join at 1. simpl. rewrite string_app_empty_r.
    rewrite <- fromCharCode_app. by rewrite slice_drop.
  - rewrite drop_ge by lia. simpl. by rewrite string_app_empty_r.
Qed.

Lemma fromCharCode_length (l : list byte) : String.length (fromCharCode l) = length l.
Proof. induction l as [|c l IH]; [done |]. cbn [fromCharCode String.length length]. by f_equal. Qed.

Lemma fromCharCode_charCodeAt (l : list byte) (i : nat) :
  charCodeAt (fromCharCode l) i = l !! i.
Proof.
  unfold charCodeAt. revert i.
  induction l as [|c l IH]; intros [|i]; cbn [fromCharCode String.get]; try done.
  simpl. by rewrite byte_of_ascii_of_byte.
Qed.

Lemma fromCharCode_charCodes (l : list byte) : charCodes (fromCharCode l) = l.
Proof.
  induction l as [|c l IH]; [done |].
  cbn [fromCharCode charCodes]. by rewrite byte_of_ascii_of_byte, IH.
Qed.

(** The chunked conversion is the character-by-character one. *)
Lemma uint8ArrayToString_fromCharCode (arr : list byte) :
  uint8ArrayToString arr = fromCharCode arr.
Proof.
  unfold uint8ArrayToString. case_decide as Hlen.
  - by destruct arr.
  - by rewrite uint8ArrayToString_loop_join.
Qed.

Lemma uint8ArrayToString_inj (a b : list byte) :
  uint8ArrayToString a = uint8ArrayToString b → a = b.
Proof.
  rewrite !uint8ArrayToString_fromCharCode. intros Heq.
  by rewrite <- (fromCharCode_charCodes a), Heq, fromCharCode_charCodes.
Qed.

Lemma slice_length (arr : list byte) (i n : nat) : length (slice arr i (i + n)) ≤ n.
Proof. unfold slice. rewrite length_take. lia. Qed.

(** No part the loop pushes is longer than a chunk. *)
Lemma uint8ArrayToString_loop_bounded (arr : list byte) (i : nat) (parts : list string) :
  Forall (λ part, String.length part ≤ chunkSize) parts →
  Forall (λ part, String.length part ≤ chunkSize) (uint8ArrayToString_loop arr i parts).
Proof.
  funelim (uint8ArrayToString_loop arr i parts); intros Hparts; [| done].
  apply H. apply Forall_app. split; [done |].
  apply Forall_singleton. rewrite fromCharCode_length. apply slice_length.
Qed.

(** Around the chunk boundary: 2049 bytes go in chunks of 1024, 1024 and 1. *)
Example uint8ArrayToString_loop_chunks :
  String.length <$> uint8ArrayToString_loop (replicate 2049 Byte.x41) 0 [] = [1024; 1024; 1].
Proof. vm_compute. reflexivity. Qed.

(** C8: the byte-to-string codec loses nothing. For every byte array,
    whatever its length, [uint8ArrayToString] gives a string as long as the
    array whose character code at each position is the byte at that
    position, so that reading the codes back gives the array; every chunk
    the loop converts has at most [chunkSize] bytes; and
    [arrayBufferToString] is the same conversion on the bytes of a
    buffer. *)
Theorem uint8ArrayToString_lossless (arr : list byte) :
  String.length (uint8ArrayToString arr) = length arr
  ∧ (∀ i : nat, charCodeAt (uint8ArrayToString arr) i = arr !! i)
  ∧ charCodes (uint8ArrayToString arr) = arr
  ∧ Forall (λ part, String.length part ≤ chunkSize) (uint8ArrayToString_loop arr 0 [])
  ∧ arrayBufferToString (JArrayBuffer arr) = uint8ArrayToString arr.
Proof.
  rewrite uint8ArrayToString_fromCharCode. split_and!.
  - apply fromCharCode_length.
  - apply fromCharCode_charCodeAt.
  - apply fromCharCode_charCodes.
  - by apply uint8ArrayToString_loop_bounded.
  - apply uint8ArrayToString_fromCharCode.
Qed.

(** ** The primitives *)

Lemma get_present (st : Store) (k : string) (d : JsValue) :
  get (Present k) d st = (Return (default d (st !! k)), st).
Proof.
  unfold get, bind, validateKey, ret, gets, mapHas, mapGet.
  by destruct (st !! k) eqn:Hk; simpl.
Qed.

Lemma remove_present (st : Store) (k : string) :
  remove (Present k) st = (Return tt, delete k st).
Proof. reflexivity. Qed.

Lemma put_present (st : Store) (k : string) (v : JsValue) :
  isNullish v = false → put (Present k) v st = (Return tt, <[k := v]> st).
Proof. intros Hv. unfold put, bind, validateKeyValue. by rewrite Hv. Qed.

Lemma validateKey_null (st : Store) (key : Nullable string) :
  isNullKey key →
  validateKey key st = (Throw {| message := "Key cannot be null or undefined" |}, st).
Proof. by intros [-> | ->]. Qed.

Lemma invalid_key : InvalidArgument {| message := "Key cannot be null or undefined" |}.
Proof. by left. Qed.

Lemma invalid_key_value :
  InvalidArgument {| message := "Key and value cannot be null or undefined" |}.
Proof. by right. Qed.

Lemma get_fails_iff (st : Store) (key : Nullable string) (d : JsValue) :
  failsWith InvalidArgument (get key d st) ↔ isNullKey key.
Proof.
  split.
  - destruct key as [| |k]; [by left | by right |].
    rewrite get_present. by intros (e & He & _).
  - intros Hkey. exists {| message := "Key cannot be null or undefined" |}.
    split; [| apply invalid_key]. unfold get, bind. by rewrite validateKey_null.
Qed.

Lemma remove_fails_iff (st : Store) (key : Nullable string) :
  failsWith InvalidArgument (remove key st) ↔ isNullKey key.
Proof.
  split.
  - destruct key as [| |k]; [by left | by right |]. by intros (e & He & _).
  - intros Hkey. exists {| message := "Key cannot be null or undefined" |}.
    split; [| apply invalid_key]. unfold remove, bind. by rewrite validateKey_null.
Qed.

Lemma put_fails_iff (st : Store) (key : Nullable string) (value : JsValue) :
  failsWith InvalidArgument (put key value st) ↔ isNullKey key ∨ isNullish value = true.
Proof.
  split.
  - destruct key as [| |k]; [left; by left | left; by right |].
    destruct (isNullish value) eqn:Hv; [by right |].
    rewrite put_present by done. by intros (e & He & _).
  - intros Hfail. exists {| message := "Key and value cannot be null or undefined" |}.
    split; [| apply invalid_key_value].
    unfold put, bind, validateKeyValue.
    destruct Hfail as [[-> | ->] | Hv]; [done | done |].
    destruct key; [done | done |]. by rewrite Hv.
Qed.

(** C9: the contract of the store primitives. [get] fails with
    [InvalidArgument] exactly when the key is null, and otherwise returns
    the stored value of a set key and the default of an unset one, leaving
    the store as it is; [put] fails with [InvalidArgument] exactly when the
    key or the value is null, and otherwise overwrites; [remove] fails with
    [InvalidArgument] exactly when the key is null, otherwise deletes the
    key, and changes nothing when the key is absent; so [removePreKey] of
    an id that was never stored returns and leaves the store unchanged. A
    failing primitive leaves the store unchanged too. *)
Theorem store_primitive_contract (st : Store) (key : Nullable string)
    (k : string) (value d : JsValue) (keyId : KeyId) :
  (failsWith InvalidArgument (get key d st) ↔ isNullKey key)
  ∧ get (Present k) d st = (Return (default d (st !! k)), st)
  ∧ (∀ v, st !! k = Some v → get (Present k) d st = (Return v, st))
  ∧ (st !! k = None → get (Present k) d st = (Return d, st))
  ∧ (failsWith InvalidArgument (put key value st) ↔ isNullKey key ∨ isNullish value = true)
  ∧ (isNullish value = false → put (Present k) value st = (Return tt, <[k := value]> st))
  ∧ (failsWith InvalidArgument (remove key st) ↔ isNullKey key)
  ∧ remove (Present k) st = (Return tt, delete k st)
  ∧ (st !! k = None → remove (Present k) st = (Return tt, st))
  ∧ (st !! (STORE_PREFIX.PREKEY +:+ keyIdToString keyId) = None →
     removePreKey keyId st = (Return tt, st))
  ∧ (get key d st).2 = st
  ∧ (isNullKey key ∨ isNullish value = true → (put key value st).2 = st)
  ∧ (isNullKey key → (remove key st).2 = st).
Proof.
  split_and!.
  - apply get_fails_iff.
  - apply get_present.
  - intros v Hv. by rewrite get_present, Hv.
  - intros Hk. by rewrite get_present, Hk.
  - apply put_fails_iff.
  - apply put_present.
  - apply remove_fails_iff.
  - apply remove_present.
  - intros Hk. by rewrite remove_present, delete_id.
  - intros Hk. unfold removePreKey. by rewrite remove_present, delete_id.
  - destruct key as [| |k']; [done | done |]. by rewrite get_present.
  - unfold put, bind, validateKeyValue.
    intros [[-> | ->] | Hv]; [done | done |].
    destruct key; [done | done |]. by rewrite Hv.
  - by intros [-> | ->].
Qed.

Lemma store_primitive_contract_witness :
  let st : Store := {[ "a" := JNumber 1 ]} in
  get (Present "a") JUndefined st = (Return (JNumber 1), st)
  ∧ get (Present "b") JUndefined st = (Return JUndefined, st)
  ∧ put (Present "a") (JString "x") st = (Return tt, <["a" := JString "x"]> st)
  ∧ remove (Present "b") st = (Return tt, st)
  ∧ removePreKey (KeyIdNumber 7) st = (Return tt, st).
Proof.
  intros st.
  pose proof (store_primitive_contract st (Present "a") "a" (JString "x") JUndefined
                (KeyIdNumber 7)) as (_ & _ & Hget & _ & _ & Hput & _ & _ & _ & Hpre & _).
  pose proof (store_primitive_contract st (Present "b") "b" (JString "x") JUndefined
                (KeyIdNumber 7)) as (_ & _ & _ & Hunset & _ & _ & _ & _ & Hrm & _).
  split_and!.
  - apply Hget. reflexivity.
  - apply Hunset. reflexivity.
  - apply Hput. reflexivity.
  - apply Hrm. reflexivity.
  - apply Hpre. reflexivity.
Defined.

(** ** Typed reads and writes *)

Lemma truthy_not_nullish (v : JsValue) : truthy v = true → isNullish v = false.
Proof. by destruct v. Qed.

Lemma isArrayBuffer_spec (v : JsValue) :
  isArrayBuffer v = true ↔ ∃ bytes, v = JArrayBuffer bytes.
Proof.
  split.
  - destruct v; unfold isArrayBuffer; rewrite ?andb_false_r; try done.
    intros _. by eexists.
  - by intros [bytes ->].
Qed.

Lemma isKeyPairType_object (v : JsValue) :
  isKeyPairType v = true → ∃ props, v = JObject props.
Proof.
  destruct v; unfold isKeyPairType; simpl; rewrite ?orb_true_r; try done.
  intros _. by eexists.
Qed.

Lemma isKeyPairType_ofKeyPair (kp : KeyPairType) : isKeyPairType (ofKeyPair kp) = true.
Proof. reflexivity. Qed.

(** The tail of a read that tests its value with [!value]. *)
Lemma bind_get (B : Type) (st : Store) (k : string) (d : JsValue) (f : JsValue → M B) :
  bind (get (Present k) d) f st = f (default d (st !! k)) st.
Proof. unfold bind. by rewrite get_present. Qed.

(** C10: the pre-key round trip. For every store, every pre-key id and
    every key pair (an object whose [pubKey] and [privKey] are byte
    buffers), [storePreKey] followed by [loadPreKey] of the same id returns
    that very object, with the bytes of both buffers as they were stored. *)
Theorem storePreKey_loadPreKey (st : Store) (keyId : KeyId) (kp : KeyPairType) :
  let st' := <[STORE_PREFIX.PREKEY +:+ keyIdToString keyId := ofKeyPair kp]> st in
  (storePreKey keyId (ofKeyPair kp) ;; loadPreKey keyId) st = (Return (ofKeyPair kp), st')
  ∧ getProp (ofKeyPair kp) "pubKey" = JArrayBuffer (pubKey kp)
  ∧ getProp (ofKeyPair kp) "privKey" = JArrayBuffer (privKey kp).
Proof.
  intros st'. split_and!; [| done | done].
  unfold bind at 1, storePreKey. rewrite put_present by done.
  unfold loadPreKey. rewrite bind_get. subst st'.
  by rewrite lookup_insert_eq.
Qed.

(** What [storePreKey] then [loadPreKey] does for any stored value that
    passes the shape check. *)
Lemma storePreKey_loadPreKey_shape (st : Store) (keyId : KeyId) (v : JsValue) :
  isKeyPairType v = true →
  (storePreKey keyId v ;; loadPreKey keyId) st
  = (Return v, <[STORE_PREFIX.PREKEY +:+ keyIdToString keyId := v]> st).
Proof.
  intros Hv. assert (truthy v = true) as Ht.
  { by destruct (isKeyPairType_object v Hv) as [props ->]. }
  unfold bind at 1, storePreKey. rewrite put_present by by apply truthy_not_nullish.
  unfold loadPreKey. rewrite bind_get, lookup_insert_eq. simpl. by rewrite Ht, Hv.
Qed.

(** ** Identity trust *)

(** The check of a non-null identifier, step by step: the entry is
    deleted, then read, and what is read is nothing. *)
Lemma isTrustedIdentity_present (st : Store) (identifier : string)
    (identityKey : Nullable ArrayBuffer) (direction : Direction) :
  isTrustedIdentity (Present identifier) identityKey direction st
  = (Return true, delete (STORE_PREFIX.IDENTITY +:+ identifier) st).
Proof.
  unfold isTrustedIdentity. unfold bind at 1. rewrite remove_present.
  unfold bind at 1. cbn [validateKey ret keyToString ofNullable toString].
  rewrite bind_get. by rewrite lookup_delete_eq.
Qed.

(** C3: whatever the store holds, [isTrustedIdentity] of a non-null
    identifier returns true for every candidate key, and leaves the store
    without the entry under the identity prefix and that identifier: the
    entry is deleted before it is read, the comparison of bytes is never
    reached, and no identity key recorded in that entry changes the
    answer. *)
Theorem isTrustedIdentity_always_true (st : Store) (identifier : string)
    (identityKey : Nullable ArrayBuffer) (direction : Direction) :
  let key := STORE_PREFIX.IDENTITY +:+ identifier in
  isTrustedIdentity (Present identifier) identityKey direction st
  = (Return true, delete key st)
  ∧ (isTrustedIdentity (Present identifier) identityKey direction st).2 !! key = None
  ∧ (∀ recorded : ArrayBuffer,
       isTrustedIdentity (Present identifier) identityKey direction
         (<[key := JArrayBuffer recorded]> st)
       = (Return true, delete key st)).
Proof.
  intros key. subst key. split_and!.
  - apply isTrustedIdentity_present.
  - rewrite isTrustedIdentity_present. apply lookup_delete_eq.
  - intros recorded. rewrite isTrustedIdentity_present. by rewrite delete_insert_eq.
Qed.

(** A null identifier: the entry under the identity prefix and the text
    ["null"] is deleted before the check of the identifier throws. *)
Lemma isTrustedIdentity_null (st : Store) (identityKey : Nullable ArrayBuffer)
    (direction : Direction) :
  isTrustedIdentity Null identityKey direction st
  = (Throw {| message := "Key cannot be null or undefined" |}, delete "identityKeynull" st).
Proof. reflexivity. Qed.

(** With nothing recorded for the identifier, the check changes nothing. *)
Lemma isTrustedIdentity_first_use (st : Store) (identifier : string)
    (identityKey : Nullable ArrayBuffer) (direction : Direction) :
  st !! (STORE_PREFIX.IDENTITY +:+ identifier) = None →
  isTrustedIdentity (Present identifier) identityKey direction st = (Return true, st).
Proof. intros Hnone. by rewrite isTrustedIdentity_present, delete_id. Qed.

(** C2, at the failing input: a store that pins the key [1; 2; 3] for
    ["bob"]. The check of that very key returns true and leaves the store
    empty: the pinned key is gone. *)
Theorem isTrustedIdentity_deletes_pinned_key :
  let st : Store := {[ "identityKeybob" := JArrayBuffer (exampleBytes [1; 2; 3]) ]} in
  isTrustedIdentity (Present "bob") (Present (exampleBytes [1; 2; 3])) RECEIVING st
  = (Return true, ∅)
  ∧ (isTrustedIdentity (Present "bob") (Present (exampleBytes [1; 2; 3])) RECEIVING st).2 ≠ st.
Proof.
  intros st. rewrite isTrustedIdentity_present. split.
  - subst st. by rewrite delete_singleton_eq.
  - simpl. intros Heq. assert (st !! "identityKeybob" = None) as Hnone.
    { rewrite <- Heq. apply lookup_delete_eq. }
    done.
Qed.

(** ** Malformed stored values *)

Lemma corrupt_identity : CorruptState {| message := "Stored identity key has invalid format" |}.
Proof. by left. Qed.

(** The tail shared by the reads that test the stored value with [!value]
    and then with a shape check. *)
Lemma guarded_read_rejects (st : Store) (v : JsValue) (shape : JsValue → bool) (msg : string) :
  truthy v = true → shape v = false → CorruptState {| message := msg |} →
  failsWith CorruptState
    ((if negb (truthy v) then ret JUndefined
      else if shape v then ret v else throw msg) st)
  ∧ ((if negb (truthy v) then ret JUndefined
      else if shape v then ret v else throw msg) st).2 = st.
Proof.
  intros -> -> Hmsg. simpl. split; [| done]. by eexists.
Qed.

Lemma typeof_read_rejects (st : Store) (v : JsValue) (ty msg : string) :
  v ≠ JUndefined → String.eqb (typeof v) ty = false → ty ≠ "undefined" →
  CorruptState {| message := msg |} →
  failsWith CorruptState
    ((if String.eqb (typeof v) ty || String.eqb (typeof v) "undefined" then ret v
      else throw msg) st)
  ∧ ((if String.eqb (typeof v) ty || String.eqb (typeof v) "undefined" then ret v
      else throw msg) st).2 = st.
Proof.
  intros Hv -> Hty Hmsg.
  assert (String.eqb (typeof v) "undefined" = false) as -> by by destruct v.
  simpl. split; [| done]. by eexists.
Qed.

Lemma loadIdentityKey_present (st : Store) (identifier : string) :
  loadIdentityKey (Present identifier) st
  = (let key := default JUndefined (st !! (STORE_PREFIX.IDENTITY +:+ identifier)) in
     if negb (truthy key) then ret JUndefined
     else if isArrayBuffer key then ret key
     else throw "Stored identity key has invalid format") st.
Proof.
  unfold loadIdentityKey. unfold bind at 1. cbn [validateKey ret].
  by rewrite bind_get.
Qed.

(** C6, where it fails: the number 0 stored under the key of the identity
    key pair is present and is no key pair, and yet [getIdentityKeyPair]
    returns [undefined] for it instead of failing. *)
Lemma getIdentityKeyPair_coerces_zero :
  ¬ rejectsMalformed getIdentityKeyPair STORE_PREFIX.IDENTITY isKeyPairType.
Proof.
  intros Hclaim.
  destruct (Hclaim {[ "identityKey" := JNumber 0 ]} (JNumber 0)) as (e & He & _); done.
Qed.

(** C6, as the code has it: a stored value that is truthy and fails the
    shape check makes [getIdentityKeyPair], [loadPreKey],
    [loadSignedPreKey] and [loadIdentityKey] fail with [CorruptState]; a
    stored value other than [undefined] that is no number, respectively no
    string, makes [getLocalRegistrationId], respectively [loadSession],
    fail with [CorruptState]. The failing read returns nothing and leaves
    the store as it was. *)
Theorem typed_reads_reject_malformed (st : Store) (v : JsValue)
    (keyId : KeyId) (identifier : string) :
  (st !! STORE_PREFIX.IDENTITY = Some v → truthy v = true → isKeyPairType v = false →
   failsWith CorruptState (getIdentityKeyPair st) ∧ (getIdentityKeyPair st).2 = st)
  ∧ (st !! "registrationId" = Some v → v ≠ JUndefined → isNumber v = false →
     failsWith CorruptState (getLocalRegistrationId st) ∧ (getLocalRegistrationId st).2 = st)
  ∧ (st !! (STORE_PREFIX.PREKEY +:+ keyIdToString keyId) = Some v →
     truthy v = true → isKeyPairType v = false →
     failsWith CorruptState (loadPreKey keyId st) ∧ (loadPreKey keyId st).2 = st)
  ∧ (st !! (STORE_PREFIX.SIGNED_KEY +:+ keyIdToString keyId) = Some v →
     truthy v = true → isKeyPairType v = false →
     failsWith CorruptState (loadSignedPreKey keyId st) ∧ (loadSignedPreKey keyId st).2 = st)
  ∧ (st !! (STORE_PREFIX.SESSION +:+ identifier) = Some v → v ≠ JUndefined →
     isString v = false →
     failsWith CorruptState (loadSession identifier st) ∧ (loadSession identifier st).2 = st)
  ∧ (st !! (STORE_PREFIX.IDENTITY +:+ identifier) = Some v →
     truthy v = true → isArrayBuffer v = false →
     failsWith CorruptState (loadIdentityKey (Present identifier) st)
     ∧ (loadIdentityKey (Present identifier) st).2 = st).
Proof.
  split_and!; intros Hst Hv Hshape.
  - unfold getIdentityKeyPair. rewrite bind_get, Hst.
    apply guarded_read_rejects; [done | done | by left].
  - unfold getLocalRegistrationId. rewrite bind_get, Hst.
    apply typeof_read_rejects; [done | done | done | by right; left].
  - unfold loadPreKey. rewrite bind_get, Hst.
    apply guarded_read_rejects; [done | done | by right; right; left].
  - unfold loadSignedPreKey. rewrite bind_get, Hst.
    apply guarded_read_rejects; [done | done | by do 4 right; left].
  - unfold loadSession. rewrite bind_get, Hst.
    apply typeof_read_rejects; [done | done | done | by do 3 right; left].
  - rewrite loadIdentityKey_present, Hst.
    apply guarded_read_rejects; [done | done | by left].
Qed.

Lemma typed_reads_reject_malformed_witness :
  let st : Store :=
    {[ "identityKey" := JString "oops"; "registrationId" := JString "oops";
       "Sylens-KeypreKey1" := JString "oops"; "Sylens-KeysignedKey1" := JString "oops";
       "sessionbob.1" := JNumber 5; "identityKeybob.1" := JString "oops" ]} in
  failsWith CorruptState (getIdentityKeyPair st)
  ∧ failsWith CorruptState (getLocalRegistrationId st)
  ∧ failsWith CorruptState (loadPreKey (KeyIdNumber 1) st)
  ∧ failsWith CorruptState (loadSignedPreKey (KeyIdNumber 1) st)
  ∧ failsWith CorruptState (loadSession "bob.1" st)
  ∧ failsWith CorruptState (loadIdentityKey (Present "bob.1") st).
Proof.
  intros st.
  pose proof (typed_reads_reject_malformed st (JString "oops") (KeyIdNumber 1) "bob.1")
    as (Hpair & Hrid & Hpre & Hsigned & _ & Hidentity).
  pose proof (typed_reads_reject_malformed st (JNumber 5) (KeyIdNumber 1) "bob.1")
    as (_ & _ & _ & _ & Hsession & _).
  split_and!.
  - apply Hpair; reflexivity.
  - apply Hrid; [reflexivity | discriminate | reflexivity].
  - apply Hpre; reflexivity.
  - apply Hsigned; reflexivity.
  - apply Hsession; [reflexivity | discriminate | reflexivity].
  - apply Hidentity; reflexivity.
Defined.

(** The other half of the [!value] test: a stored 0, empty string or
    [false] is reported as if nothing were stored. *)
Lemma guarded_reads_coerce_falsy (st : Store) (v : JsValue)
    (keyId : KeyId) (identifier : string) :
  truthy v = false →
  (st !! STORE_PREFIX.IDENTITY = Some v → getIdentityKeyPair st = (Return JUndefined, st))
  ∧ (st !! (STORE_PREFIX.PREKEY +:+ keyIdToString keyId) = Some v →
     loadPreKey keyId st = (Return JUndefined, st))
  ∧ (st !! (STORE_PREFIX.SIGNED_KEY +:+ keyIdToString keyId) = Some v →
     loadSignedPreKey keyId st = (Return JUndefined, st))
  ∧ (st !! (STORE_PREFIX.IDENTITY +:+ identifier) = Some v →
     loadIdentityKey (Present identifier) st = (Return JUndefined, st)).
Proof.
  intros Hv. split_and!; intros Hst.
  - unfold getIdentityKeyPair. rewrite bind_get, Hst. simpl. by rewrite Hv.
  - unfold loadPreKey. rewrite bind_get, Hst. simpl. by rewrite Hv.
  - unfold loadSignedPreKey. rewrite bind_get, Hst. simpl. by rewrite Hv.
  - rewrite loadIdentityKey_present, Hst. simpl. by rewrite Hv.
Qed.

(** ** Bulk session removal *)

(** One pass that deletes every visited key satisfying [P]. *)
Lemma foldl_delete_lookup (P : string → bool) (entries : list (string * JsValue))
    (m : Store) (k : string) :
  foldl (λ m entry, if P entry.1 then delete entry.1 m else m) m entries !! k
  = if P k && bool_decide (k ∈ entries.*1) then None else m !! k.
Proof.
  revert m. induction entries as [|[k' v'] entries IH]; intros m.
  - simpl. by rewrite andb_false_r.
  - cbn [foldl fmap list_fmap fst]. rewrite IH.
    destruct (P k) eqn:HPk; simpl.
    2: { destruct (P k') eqn:HPk'; [| done].
         apply lookup_delete_ne. intros ->. congruence. }
    destruct (decide (k = k')) as [<- | Hne].
    + rewrite (bool_decide_eq_true_2 (k ∈ k :: entries.*1)) by left.
      rewrite HPk. case_bool_decide; [done | apply lookup_delete_eq].
    + assert (bool_decide (k ∈ k' :: entries.*1) = bool_decide (k ∈ entries.*1)) as ->.
      { apply bool_decide_ext. rewrite elem_of_cons. split; [by intros [? | ?] | by right]. }
      case_bool_decide; [done |].
      destruct (P k'); [by rewrite lookup_delete_ne | done].
Qed.

Lemma removeAllSessions_lookup (st : Store) (identifier key : string) :
  (removeAllSessions identifier st).2 !! key
  = if startsWith key (STORE_PREFIX.SESSION +:+ identifier) then None else st !! key.
Proof.
  unfold removeAllSessions, modify. cbn [snd].
  rewrite (foldl_delete_lookup (λ k, startsWith k (STORE_PREFIX.SESSION +:+ identifier))).
  destruct (startsWith key _); [| done]. simpl.
  case_bool_decide as Hin; [done |].
  destruct (st !! key) as [v|] eqn:Hkey; [| done].
  exfalso. apply Hin. apply list_elem_of_fmap. exists (key, v).
  split; [done |]. by apply elem_of_map_to_list.
Qed.

Lemma startsWith_session_other_kind (identifier x : string) :
  startsWith (STORE_PREFIX.PREKEY +:+ x) (STORE_PREFIX.SESSION +:+ identifier) = false
  ∧ startsWith (STORE_PREFIX.SIGNED_KEY +:+ x) (STORE_PREFIX.SESSION +:+ identifier) = false
  ∧ startsWith (STORE_PREFIX.IDENTITY +:+ x) (STORE_PREFIX.SESSION +:+ identifier) = false
  ∧ startsWith "registrationId" (STORE_PREFIX.SESSION +:+ identifier) = false.
Proof. by split_and!. Qed.

(** C7: for every store and peer root address, [removeAllSessions] returns
    and leaves a store in which a key that starts with the session prefix
    followed by the address has no entry and every other key has the entry
    it had: the result is the store filtered by that test. In particular
    the pre-keys, signed pre-keys, identity keys and the registration id
    are all as they were. *)
Theorem removeAllSessions_exact (st : Store) (identifier : string) :
  ∃ st' : Store,
    removeAllSessions identifier st = (Return tt, st')
    ∧ (∀ key : string,
         st' !! key
         = if startsWith key (STORE_PREFIX.SESSION +:+ identifier) then None else st !! key)
    ∧ st' = filter (λ entry, startsWith entry.1 (STORE_PREFIX.SESSION +:+ identifier) = false) st
    ∧ (∀ x : string,
         st' !! (STORE_PREFIX.PREKEY +:+ x) = st !! (STORE_PREFIX.PREKEY +:+ x)
         ∧ st' !! (STORE_PREFIX.SIGNED_KEY +:+ x) = st !! (STORE_PREFIX.SIGNED_KEY +:+ x)
         ∧ st' !! (STORE_PREFIX.IDENTITY +:+ x) = st !! (STORE_PREFIX.IDENTITY +:+ x))
    ∧ st' !! "registrationId" = st !! "registrationId".
Proof.
  exists (removeAllSessions identifier st).2.
  split_and!.
  - done.
  - apply removeAllSessions_lookup.
  - apply map_eq. intros key. rewrite removeAllSessions_lookup, map_lookup_filter.
    destruct (st !! key) as [v|] eqn:Hkey; simpl.
    + destruct (startsWith key _) eqn:Hstart.
      * by rewrite option_guard_False.
      * by rewrite option_guard_True.
    + by destruct (startsWith key _).
  - intros x. rewrite !removeAllSessions_lookup.
    by destruct (startsWith_session_other_kind identifier x) as (-> & -> & -> & _).
  - rewrite removeAllSessions_lookup.
    by destruct (startsWith_session_other_kind identifier "") as (_ & _ & _ & ->).
Qed.

(** ** Identity commitment *)

Section SaveIdentityProperties.
Context {SignalProtocolAddress : Type}.
Variable fromString : string → Completion SignalProtocolAddress.
Variable getName : SignalProtocolAddress → string.

(** [saveIdentity] on an identifier that parses and a key that is not
    null, step by step. *)
Lemma saveIdentity_present (st : Store) (identifier : string)
    (address : SignalProtocolAddress) (identityKey : ArrayBuffer) :
  fromString identifier = Return address →
  saveIdentity fromString getName (Present identifier) (Present identityKey) st
  = let key := STORE_PREFIX.IDENTITY +:+ getName address in
    let existing := default JUndefined (st !! key) in
    if truthy existing && negb (isArrayBuffer existing) then
      (Throw {| message := "Existing identity key has invalid format" |}, st)
    else
      (Return (truthy existing
               && negb (String.eqb (uint8ArrayToString identityKey)
                                   (arrayBufferToString existing))),
       <[key := JArrayBuffer identityKey]> st).
Proof.
  intros Hparse. unfold saveIdentity.
  unfold bind at 1. cbn [validateKeyValue bufferArg ofNullable isNullish ret].
  unfold bind at 1, lift. rewrite Hparse. rewrite bind_get. cbn zeta.
  destruct (truthy _ && negb (isArrayBuffer _)); [done |].
  unfold bind. by rewrite put_present.
Qed.

Lemma saveIdentity_typed (st : Store) (identifier : string)
    (address : SignalProtocolAddress) (identityKey : ArrayBuffer) :
  fromString identifier = Return address →
  identityEntryTyped st (STORE_PREFIX.IDENTITY +:+ getName address) →
  saveIdentity fromString getName (Present identifier) (Present identityKey) st
  = (Return (match st !! (STORE_PREFIX.IDENTITY +:+ getName address) with
             | Some (JArrayBuffer recorded) => negb (bool_decide (recorded = identityKey))
             | _ => false
             end),
     <[STORE_PREFIX.IDENTITY +:+ getName address := JArrayBuffer identityKey]> st).
Proof.
  intros Hparse Htyped. rewrite (saveIdentity_present _ _ address) by done. cbn zeta.
  destruct Htyped as [-> | [recorded ->]]; [done |].
  cbn [default truthy isArrayBuffer andb negb typeof hasProp instanceofArrayBuffer].
  simpl. do 3 f_equal. unfold arrayBufferToString. cbn [newUint8Array].
  case_bool_decide as Heq.
  - subst. apply String.eqb_refl.
  - apply String.eqb_neq. intros Hstr. by apply uint8ArrayToString_inj in Hstr.
Qed.

(** C4: for an identifier that parses to an address and a store whose
    entry for that address's name is empty or a recorded key,
    [saveIdentity] returns, leaves the new key recorded under the identity
    prefix and the name whatever was there, and returns true exactly when
    a key was recorded before and its bytes differ from the new key's. So
    it returns false when no key was recorded, and false again when it is
    called once more with the same key. *)
Theorem saveIdentity_replaced (st : Store) (identifier : string)
    (address : SignalProtocolAddress) (identityKey : ArrayBuffer) :
  fromString identifier = Return address →
  identityEntryTyped st (STORE_PREFIX.IDENTITY +:+ getName address) →
  let key := STORE_PREFIX.IDENTITY +:+ getName address in
  let st' := <[key := JArrayBuffer identityKey]> st in
  ∃ replaced : bool,
    saveIdentity fromString getName (Present identifier) (Present identityKey) st = (Return replaced, st')
    ∧ st' !! key = Some (JArrayBuffer identityKey)
    ∧ (replaced = true
       ↔ ∃ recorded, st !! key = Some (JArrayBuffer recorded) ∧ recorded ≠ identityKey)
    ∧ (st !! key = None → replaced = false)
    ∧ saveIdentity fromString getName (Present identifier) (Present identityKey) st' = (Return false, st').
Proof.
  intros Hparse Htyped key st'. subst key st'. eexists. split_and!.
  - by apply saveIdentity_typed.
  - apply lookup_insert_eq.
  - destruct Htyped as [-> | [recorded ->]].
    + split; [done | by intros (? & ? & _)].
    + rewrite negb_true_iff, bool_decide_eq_false. split.
      * intros Hne. by exists recorded.
      * by intros (? & [= <-] & Hne).
  - by intros ->.
  - rewrite (saveIdentity_typed _ identifier address).
    + rewrite lookup_insert_eq, insert_insert_eq.
      by rewrite bool_decide_eq_true_2.
    + done.
    + right. exists identityKey. apply lookup_insert_eq.
Qed.

(** Two saves of different keys, then the second key again: the second
    call reports the replacement, the third does not. *)
Lemma saveIdentity_sequence (identifier : string) (address : SignalProtocolAddress)
    (k1 k2 : ArrayBuffer) :
  fromString identifier = Return address → k1 ≠ k2 →
  let key := STORE_PREFIX.IDENTITY +:+ getName address in
  saveIdentity fromString getName (Present identifier) (Present k1) newStore
  = (Return false, {[ key := JArrayBuffer k1 ]})
  ∧ saveIdentity fromString getName (Present identifier) (Present k2) {[ key := JArrayBuffer k1 ]}
    = (Return true, {[ key := JArrayBuffer k2 ]})
  ∧ saveIdentity fromString getName (Present identifier) (Present k2) {[ key := JArrayBuffer k2 ]}
    = (Return false, {[ key := JArrayBuffer k2 ]}).
Proof.
  intros Hparse Hne key. subst key. split_and!.
  - rewrite (saveIdentity_typed _ _ address); [| done | by left].
    unfold newStore. by rewrite lookup_empty, insert_empty.
  - rewrite (saveIdentity_typed _ _ address); [| done | right; exists k1; apply lookup_singleton_eq].
    rewrite lookup_singleton_eq, insert_singleton_eq.
    by rewrite bool_decide_eq_false_2.
  - rewrite (saveIdentity_typed _ _ address); [| done | right; exists k2; apply lookup_singleton_eq].
    rewrite lookup_singleton_eq, insert_singleton_eq.
    by rewrite bool_decide_eq_true_2.
Qed.

(** C5: the keys of [saveIdentity] and [loadIdentityKey] differ. For an
    identifier that parses to an address whose name is not the whole
    identifier, [saveIdentity] records the key under the identity prefix
    and the name: [loadIdentityKey] of the name returns the key, the
    entry under the identity prefix and the identifier is as it was, and
    [loadIdentityKey] of the identifier returns [undefined] when nothing
    was stored under it. *)
Theorem saveIdentity_loadIdentityKey_mismatch (st : Store) (identifier : string)
    (address : SignalProtocolAddress) (identityKey : ArrayBuffer) :
  fromString identifier = Return address →
  getName address ≠ identifier →
  identityEntryTyped st (STORE_PREFIX.IDENTITY +:+ getName address) →
  let st' := (saveIdentity fromString getName (Present identifier) (Present identityKey) st).2 in
  st' = <[STORE_PREFIX.IDENTITY +:+ getName address := JArrayBuffer identityKey]> st
  ∧ loadIdentityKey (Present (getName address)) st' = (Return (JArrayBuffer identityKey), st')
  ∧ st' !! (STORE_PREFIX.IDENTITY +:+ identifier) = st !! (STORE_PREFIX.IDENTITY +:+ identifier)
  ∧ (st !! (STORE_PREFIX.IDENTITY +:+ identifier) = None →
     loadIdentityKey (Present identifier) st' = (Return JUndefined, st')).
Proof.
  intros Hparse Hname Htyped st'.
  assert (st' = <[STORE_PREFIX.IDENTITY +:+ getName address := JArrayBuffer identityKey]> st)
    as Hst'.
  { subst st'. by rewrite (saveIdentity_typed _ _ address). }
  assert (STORE_PREFIX.IDENTITY +:+ getName address ≠ STORE_PREFIX.IDENTITY +:+ identifier)
    as Hkeys.
  { intros Heq. by apply (inj _) in Heq. }
  split_and!.
  - done.
  - rewrite loadIdentityKey_present, Hst', lookup_insert_eq. done.
  - rewrite Hst'. by apply lookup_insert_ne.
  - intros Hnone. rewrite loadIdentityKey_present, Hst'.
    rewrite lookup_insert_ne by done. by rewrite Hnone.
Qed.
End SaveIdentityProperties.

(** ** Examples with the example addresses *)

Lemma saveIdentity_replaced_witness :
  let st : Store := {[ "identityKeybob" := JArrayBuffer (exampleBytes [1; 2; 3]) ]} in
  let st' : Store := <["identityKeybob" := JArrayBuffer (exampleBytes [9; 9; 9])]> st in
  ∃ replaced : bool,
    saveIdentity exampleFromString addressName
      (Present "bob.1") (Present (exampleBytes [9; 9; 9])) st = (Return replaced, st')
    ∧ st' !! "identityKeybob" = Some (JArrayBuffer (exampleBytes [9; 9; 9]))
    ∧ (replaced = true
       ↔ ∃ recorded, st !! "identityKeybob" = Some (JArrayBuffer recorded)
                     ∧ recorded ≠ exampleBytes [9; 9; 9])
    ∧ (st !! "identityKeybob" = None → replaced = false)
    ∧ saveIdentity exampleFromString addressName
        (Present "bob.1") (Present (exampleBytes [9; 9; 9])) st' = (Return false, st').
Proof.
  intros st st'.
  apply (saveIdentity_replaced exampleFromString addressName st "bob.1"
           {| addressName := "bob"; addressDevice := "1" |} (exampleBytes [9; 9; 9])).
  - reflexivity.
  - right. exists (exampleBytes [1; 2; 3]). reflexivity.
Defined.

Lemma saveIdentity_loadIdentityKey_mismatch_witness :
  let st' : Store :=
    (saveIdentity exampleFromString addressName
       (Present "bob.1") (Present (exampleBytes [1; 2; 3])) newStore).2 in
  st' = <["identityKeybob" := JArrayBuffer (exampleBytes [1; 2; 3])]> newStore
  ∧ loadIdentityKey (Present "bob") st' = (Return (JArrayBuffer (exampleBytes [1; 2; 3])), st')
  ∧ st' !! "identityKeybob.1" = newStore !! "identityKeybob.1"
  ∧ (newStore !! "identityKeybob.1" = None →
     loadIdentityKey (Present "bob.1") st' = (Return JUndefined, st')).
Proof.
  intros st'.
  apply (saveIdentity_loadIdentityKey_mismatch exampleFromString addressName newStore "bob.1"
           {| addressName := "bob"; addressDevice := "1" |} (exampleBytes [1; 2; 3])).
  - reflexivity.
  - discriminate.
  - left. reflexivity.
Defined.

(** C1, at the failing input: on a new store, [saveIdentity] records the
    key [1; 2; 3] for the address ["bob.1"], under the name ["bob"]. The
    check of the different key [9; 9; 9] then returns true for the address,
    and returns true for the name as well, where it also deletes the
    recorded key. *)
Theorem isTrustedIdentity_accepts_other_key :
  let k := exampleBytes [1; 2; 3] in
  let k' := exampleBytes [9; 9; 9] in
  let st : Store :=
    (saveIdentity exampleFromString addressName (Present "bob.1") (Present k) newStore).2 in
  k' ≠ k
  ∧ st = {[ "identityKeybob" := JArrayBuffer k ]}
  ∧ isTrustedIdentity (Present "bob.1") (Present k') RECEIVING st = (Return true, st)
  ∧ isTrustedIdentity (Present "bob") (Present k') RECEIVING st = (Return true, ∅).
Proof.
  intros k k' st.
  assert (st = {[ "identityKeybob" := JArrayBuffer k ]}) as Hst.
  { subst st.
    rewrite (saveIdentity_typed exampleFromString addressName _ _
               {| addressName := "bob"; addressDevice := "1" |}); [done | done | by left]. }
  split_and!.
  - discriminate.
  - done.
  - apply isTrustedIdentity_first_use. by rewrite Hst.
  - rewrite isTrustedIdentity_present, Hst. by rewrite delete_singleton_eq.
Qed.

(** * Further properties of the code *)

(** ** Shape checks *)

Lemma isArrayBuffer_getProp (props : list (string * JsValue)) (p : string) :
  isArrayBuffer (getProp (JObject props) p) = true
  ↔ ∃ bytes, lookupProp p props = Some (JArrayBuffer bytes).
Proof.
  rewrite isArrayBuffer_spec. cbn [getProp].
  destruct (lookupProp p props) as [v|]; simpl.
  - split; intros [bytes Hb]; exists bytes; congruence.
  - split; intros [bytes Hb]; discriminate.
Qed.

(** [isKeyPairType] accepts exactly the objects whose [privKey] and
    [pubKey] properties are byte buffers, whatever else they carry; a
    byte buffer, a string, a number, [null] and [undefined] are all
    refused. *)
Theorem isKeyPairType_iff (kp : JsValue) :
  isKeyPairType kp = true
  ↔ ∃ props priv pub,
      kp = JObject props
      ∧ lookupProp "privKey" props = Some (JArrayBuffer priv)
      ∧ lookupProp "pubKey" props = Some (JArrayBuffer pub).
Proof.
  split.
  - intros Hkp. destruct (isKeyPairType_object kp Hkp) as [props ->].
    unfold isKeyPairType in Hkp. cbn [truthy typeof negb orb String.eqb] in Hkp.
    simpl in Hkp. apply andb_true_iff in Hkp as [Hpriv Hpub].
    apply isArrayBuffer_getProp in Hpriv as [priv Hpriv].
    apply isArrayBuffer_getProp in Hpub as [pub Hpub].
    by exists props, priv, pub.
  - intros (props & priv & pub & -> & Hpriv & Hpub).
    unfold isKeyPairType. simpl. by rewrite Hpriv, Hpub.
Qed.

(** [isPreKeyType] accepts exactly the objects with a number as [keyId]
    and a key pair as [keyPair]; [isSignedPreKeyType] accepts exactly
    those of them that also have a byte buffer as [signature]. The
    objects of the two interfaces pass their check, and neither is a key
    pair. *)
Theorem isPreKeyType_isSignedPreKeyType_iff (v : JsValue) :
  (isPreKeyType v = true
   ↔ ∃ props n kp,
       v = JObject props
       ∧ lookupProp "keyId" props = Some (JNumber n)
       ∧ lookupProp "keyPair" props = Some kp
       ∧ isKeyPairType kp = true)
  ∧ (isSignedPreKeyType v = true
     ↔ isPreKeyType v = true
       ∧ ∃ props signature,
           v = JObject props ∧ lookupProp "signature" props = Some (JArrayBuffer signature))
  ∧ (∀ pk : BundlePreKey,
       isPreKeyType (ofPreKey pk) = true ∧ isKeyPairType (ofPreKey pk) = false)
  ∧ (∀ spk : BundleSignedPreKey,
       isSignedPreKeyType (ofSignedPreKey spk) = true
       ∧ isKeyPairType (ofSignedPreKey spk) = false).
Proof.
  split_and!.
  - split.
    + destruct v as [| |b|n|s|bytes|props]; unfold isPreKeyType; simpl;
        rewrite ?orb_true_r; try done.
      destruct (lookupProp "keyId" props) as [[| |b|n|s|bytes|props']|] eqn:Hid;
        simpl; try done.
      destruct (lookupProp "keyPair" props) as [kp|] eqn:Hpair; simpl; [| done].
      intros Hkp. by exists props, n, kp.
    + intros (props & n & kp & -> & Hid & Hpair & Hkp).
      unfold isPreKeyType. simpl. by rewrite Hid, Hpair.
  - split.
    + destruct v as [| |b|n|s|bytes|props]; unfold isSignedPreKeyType; simpl;
        rewrite ?orb_true_r; try done.
      intros [Hsig Hpre]%andb_true_iff. split; [done |].
      apply (isArrayBuffer_getProp props "signature") in Hsig as [signature Hsig].
      by exists props, signature.
    + intros (Hpre & props & signature & -> & Hsig).
      unfold isSignedPreKeyType. simpl. rewrite Hsig. simpl. by rewrite Hpre.
  - done.
  - done.
Qed.

(** ** The codec, compared *)

(** Two byte buffers give the same string exactly when they hold the same
    bytes: the [===] of [isTrustedIdentity] and [saveIdentity] on the two
    strings is the comparison of the bytes. *)
Theorem arrayBufferToString_eq_iff (a b : ArrayBuffer) :
  String.eqb (arrayBufferToString (JArrayBuffer a)) (arrayBufferToString (JArrayBuffer b))
  = bool_decide (a = b).
Proof.
  unfold arrayBufferToString. cbn [newUint8Array]. case_bool_decide as Heq.
  - subst. apply String.eqb_refl.
  - apply String.eqb_neq. intros Hstr. by apply uint8ArrayToString_inj in Hstr.
Qed.

Lemma uint8ArrayToString_loop_length (arr : list byte) (i : nat) (parts : list string) :
  length (uint8ArrayToString_loop arr i parts)
  = length parts + (length arr - i + (chunkSize - 1)) / chunkSize.
Proof.
  funelim (uint8ArrayToString_loop arr i parts).
  - rewrite H, length_app. cbn [length]. unfold chunkSize in *.
    destruct (decide (length arr - i < 1024)) as [Hlt | Hge].
    + replace (length arr - (i + 1024)) with 0 by lia.
      rewrite (Nat.div_small (0 + _)) by lia.
      assert ((length arr - i + (1024 - 1)) / 1024 = 1) as ->; [| lia].
      symmetry. apply Nat.div_unique with (length arr - i - 1); lia.
    + replace (length arr - i + (1024 - 1)) with
        (length arr - (i + 1024) + (1024 - 1) + 1 * 1024) by lia.
      rewrite Nat.div_add by lia. lia.
  - unfold chunkSize. rewrite Nat.div_small by lia. lia.
Qed.

(** The loop calls [String.fromCharCode] once for every [chunkSize] bytes
    and once more for what is left, that is the length divided by
    [chunkSize], rounded up, times: an array of 1 to [chunkSize] bytes is
    converted in a single call. The parts, joined in the order they were
    pushed, are the characters of the whole array. *)
Theorem uint8ArrayToString_chunk_count (arr : list byte) :
  length (uint8ArrayToString_loop arr 0 []) = (length arr + (chunkSize - 1)) / chunkSize
  ∧ (0 < length arr ≤ chunkSize → length (uint8ArrayToString_loop arr 0 []) = 1)
  ∧ join (uint8ArrayToString_loop arr 0 []) = fromCharCode arr.
Proof.
  rewrite uint8ArrayToString_loop_length, Nat.sub_0_r. split_and!.
  - done.
  - unfold chunkSize. intros [Hpos Hle]. cbn [length].
    symmetry. apply Nat.div_unique with (length arr - 1); lia.
  - by rewrite uint8ArrayToString_loop_join.
Qed.

Lemma uint8ArrayToString_chunk_count_witness :
  length (uint8ArrayToString_loop (replicate 1024 Byte.x41) 0 []) = 1.
Proof.
  apply (uint8ArrayToString_chunk_count (replicate 1024 Byte.x41)).
  vm_compute. split; lia.
Defined.

(** ** Keys of the record kinds *)

Ltac case_ifs :=
  repeat match goal with
         | |- context [if ?b then _ else _] => destruct b
         end.

Ltac keys_differ_at n :=
  let H := fresh in
  intros H; apply (f_equal (String.get n)) in H; cbv in H; discriminate H.

Lemma prekey_signed_key_apart (a b : string) :
  STORE_PREFIX.PREKEY +:+ a ≠ STORE_PREFIX.SIGNED_KEY +:+ b.
Proof. keys_differ_at 10. Qed.

Lemma prekey_session_apart (a b : string) :
  STORE_PREFIX.PREKEY +:+ a ≠ STORE_PREFIX.SESSION +:+ b.
Proof. keys_differ_at 0. Qed.

Lemma prekey_identity_apart (a b : string) :
  STORE_PREFIX.PREKEY +:+ a ≠ STORE_PREFIX.IDENTITY +:+ b.
Proof. keys_differ_at 0. Qed.

Lemma signed_key_session_apart (a b : string) :
  STORE_PREFIX.SIGNED_KEY +:+ a ≠ STORE_PREFIX.SESSION +:+ b.
Proof. keys_differ_at 0. Qed.

Lemma signed_key_identity_apart (a b : string) :
  STORE_PREFIX.SIGNED_KEY +:+ a ≠ STORE_PREFIX.IDENTITY +:+ b.
Proof. keys_differ_at 0. Qed.

Lemma session_identity_apart (a b : string) :
  STORE_PREFIX.SESSION +:+ a ≠ STORE_PREFIX.IDENTITY +:+ b.
Proof. keys_differ_at 0. Qed.

Lemma registrationId_apart (a : string) :
  STORE_PREFIX.PREKEY +:+ a ≠ "registrationId"
  ∧ STORE_PREFIX.SIGNED_KEY +:+ a ≠ "registrationId"
  ∧ STORE_PREFIX.SESSION +:+ a ≠ "registrationId"
  ∧ STORE_PREFIX.IDENTITY +:+ a ≠ "registrationId".
Proof. split_and!; keys_differ_at 0. Qed.

(** What a write leaves behind, thrown or not. *)
Lemma put_store (st : Store) (k : string) (v : JsValue) :
  (put (Present k) v st).2 = if isNullish v then st else <[k := v]> st.
Proof. unfold put, bind, validateKeyValue. by destruct (isNullish v). Qed.

Lemma put_store_lookup_ne (st : Store) (k k' : string) (v : JsValue) :
  k ≠ k' → (put (Present k) v st).2 !! k' = st !! k'.
Proof.
  intros Hne. rewrite put_store. destruct (isNullish v); [done |].
  by apply lookup_insert_ne.
Qed.

(** A typed read returns according to the entry under its key alone. *)
Lemma reads_depend_on_entry (st st' : Store) (keyId : KeyId) (identifier : string) :
  (st !! STORE_PREFIX.IDENTITY = st' !! STORE_PREFIX.IDENTITY →
   (getIdentityKeyPair st).1 = (getIdentityKeyPair st').1)
  ∧ (st !! "registrationId" = st' !! "registrationId" →
     (getLocalRegistrationId st).1 = (getLocalRegistrationId st').1)
  ∧ (st !! (STORE_PREFIX.PREKEY +:+ keyIdToString keyId)
     = st' !! (STORE_PREFIX.PREKEY +:+ keyIdToString keyId) →
     (loadPreKey keyId st).1 = (loadPreKey keyId st').1)
  ∧ (st !! (STORE_PREFIX.SIGNED_KEY +:+ keyIdToString keyId)
     = st' !! (STORE_PREFIX.SIGNED_KEY +:+ keyIdToString keyId) →
     (loadSignedPreKey keyId st).1 = (loadSignedPreKey keyId st').1)
  ∧ (st !! (STORE_PREFIX.SESSION +:+ identifier) = st' !! (STORE_PREFIX.SESSION +:+ identifier) →
     (loadSession identifier st).1 = (loadSession identifier st').1)
  ∧ (st !! (STORE_PREFIX.IDENTITY +:+ identifier) = st' !! (STORE_PREFIX.IDENTITY +:+ identifier) →
     (loadIdentityKey (Present identifier) st).1 = (loadIdentityKey (Present identifier) st').1).
Proof.
  split_and!; intros Heq.
  - unfold getIdentityKeyPair. rewrite !bind_get, Heq.
    by case_ifs.
  - unfold getLocalRegistrationId. rewrite !bind_get, Heq.
    by case_ifs.
  - unfold loadPreKey. rewrite !bind_get, Heq.
    by case_ifs.
  - unfold loadSignedPreKey. rewrite !bind_get, Heq.
    by case_ifs.
  - unfold loadSession. rewrite !bind_get, Heq.
    by case_ifs.
  - rewrite !loadIdentityKey_present, Heq. cbn zeta.
    by case_ifs.
Qed.

Lemma getIdentityKeyPair_entry (st st' : Store) :
  st !! STORE_PREFIX.IDENTITY = st' !! STORE_PREFIX.IDENTITY →
  (getIdentityKeyPair st).1 = (getIdentityKeyPair st').1.
Proof. intros Heq. by apply (reads_depend_on_entry st st' (KeyIdNumber 0) ""). Qed.

Lemma getLocalRegistrationId_entry (st st' : Store) :
  st !! "registrationId" = st' !! "registrationId" →
  (getLocalRegistrationId st).1 = (getLocalRegistrationId st').1.
Proof. intros Heq. by apply (reads_depend_on_entry st st' (KeyIdNumber 0) ""). Qed.

Lemma loadPreKey_entry (st st' : Store) (keyId : KeyId) :
  st !! (STORE_PREFIX.PREKEY +:+ keyIdToString keyId)
  = st' !! (STORE_PREFIX.PREKEY +:+ keyIdToString keyId) →
  (loadPreKey keyId st).1 = (loadPreKey keyId st').1.
Proof. intros Heq. by apply (reads_depend_on_entry st st' keyId ""). Qed.

Lemma loadSignedPreKey_entry (st st' : Store) (keyId : KeyId) :
  st !! (STORE_PREFIX.SIGNED_KEY +:+ keyIdToString keyId)
  = st' !! (STORE_PREFIX.SIGNED_KEY +:+ keyIdToString keyId) →
  (loadSignedPreKey keyId st).1 = (loadSignedPreKey keyId st').1.
Proof. intros Heq. by apply (reads_depend_on_entry st st' keyId ""). Qed.

Lemma loadSession_entry (st st' : Store) (identifier : string) :
  st !! (STORE_PREFIX.SESSION +:+ identifier) = st' !! (STORE_PREFIX.SESSION +:+ identifier) →
  (loadSession identifier st).1 = (loadSession identifier st').1.
Proof. intros Heq. by apply (reads_depend_on_entry st st' (KeyIdNumber 0) identifier). Qed.

Lemma loadIdentityKey_entry (st st' : Store) (identifier : string) :
  st !! (STORE_PREFIX.IDENTITY +:+ identifier) = st' !! (STORE_PREFIX.IDENTITY +:+ identifier) →
  (loadIdentityKey (Present identifier) st).1 = (loadIdentityKey (Present identifier) st').1.
Proof. intros Heq. by apply (reads_depend_on_entry st st' (KeyIdNumber 0) identifier). Qed.

Lemma identity_key_pair_apart (a : string) :
  STORE_PREFIX.PREKEY +:+ a ≠ STORE_PREFIX.IDENTITY
  ∧ STORE_PREFIX.SIGNED_KEY +:+ a ≠ STORE_PREFIX.IDENTITY
  ∧ STORE_PREFIX.SESSION +:+ a ≠ STORE_PREFIX.IDENTITY.
Proof. split_and!; keys_differ_at 0. Qed.

(** ** Writes and reads of the record kinds *)

(** The record kinds do not see each other's writes. Whatever value
    [storePreKey], [storeSignedPreKey] or [storeSession] is given, under
    whatever id, the reads of the other kinds return what they returned
    before: a pre-key and a signed pre-key of the same id live side by
    side, and neither write touches the identity key pair, the
    registration id or a peer's identity key. *)
Theorem typed_writes_isolated (st : Store) (v : JsValue) (keyId keyId' : KeyId)
    (identifier identifier' : string) :
  (let st' := (storePreKey keyId v st).2 in
   (loadSignedPreKey keyId' st').1 = (loadSignedPreKey keyId' st).1
   ∧ (loadSession identifier' st').1 = (loadSession identifier' st).1
   ∧ (loadIdentityKey (Present identifier') st').1 = (loadIdentityKey (Present identifier') st).1
   ∧ (getIdentityKeyPair st').1 = (getIdentityKeyPair st).1
   ∧ (getLocalRegistrationId st').1 = (getLocalRegistrationId st).1)
  ∧ (let st' := (storeSignedPreKey keyId v st).2 in
     (loadPreKey keyId' st').1 = (loadPreKey keyId' st).1
     ∧ (loadSession identifier' st').1 = (loadSession identifier' st).1
     ∧ (loadIdentityKey (Present identifier') st').1
       = (loadIdentityKey (Present identifier') st).1
     ∧ (getIdentityKeyPair st').1 = (getIdentityKeyPair st).1
     ∧ (getLocalRegistrationId st').1 = (getLocalRegistrationId st).1)
  ∧ (let st' := (storeSession identifier v st).2 in
     (loadPreKey keyId' st').1 = (loadPreKey keyId' st).1
     ∧ (loadSignedPreKey keyId' st').1 = (loadSignedPreKey keyId' st).1
     ∧ (loadIdentityKey (Present identifier') st').1
       = (loadIdentityKey (Present identifier') st).1
     ∧ (getIdentityKeyPair st').1 = (getIdentityKeyPair st).1
     ∧ (getLocalRegistrationId st').1 = (getLocalRegistrationId st).1).
Proof.
  pose proof (registrationId_apart (keyIdToString keyId)) as (Hr1 & Hr2 & _ & _).
  pose proof (registrationId_apart identifier) as (_ & _ & Hr3 & _).
  pose proof (identity_key_pair_apart (keyIdToString keyId)) as (Hi1 & Hi2 & _).
  pose proof (identity_key_pair_apart identifier) as (_ & _ & Hi3).
  unfold storePreKey, storeSignedPreKey, storeSession. cbn zeta.
  repeat split.
  - apply loadSignedPreKey_entry, put_store_lookup_ne, prekey_signed_key_apart.
  - apply loadSession_entry, put_store_lookup_ne, prekey_session_apart.
  - apply loadIdentityKey_entry, put_store_lookup_ne, prekey_identity_apart.
  - apply getIdentityKeyPair_entry, put_store_lookup_ne, Hi1.
  - apply getLocalRegistrationId_entry, put_store_lookup_ne, Hr1.
  - apply loadPreKey_entry, put_store_lookup_ne, not_eq_sym, prekey_signed_key_apart.
  - apply loadSession_entry, put_store_lookup_ne, signed_key_session_apart.
  - apply loadIdentityKey_entry, put_store_lookup_ne, signed_key_identity_apart.
  - apply getIdentityKeyPair_entry, put_store_lookup_ne, Hi2.
  - apply getLocalRegistrationId_entry, put_store_lookup_ne, Hr2.
  - apply loadPreKey_entry, put_store_lookup_ne, not_eq_sym, prekey_session_apart.
  - apply loadSignedPreKey_entry, put_store_lookup_ne, not_eq_sym, signed_key_session_apart.
  - apply loadIdentityKey_entry, put_store_lookup_ne, session_identity_apart.
  - apply getIdentityKeyPair_entry, put_store_lookup_ne, Hi3.
  - apply getLocalRegistrationId_entry, put_store_lookup_ne, Hr3.
Qed.

(** A signed pre-key comes back as it was stored, and a removed pre-key
    or signed pre-key is reported as absent whatever the entry held, a
    malformed value included; the removal deletes that one entry. *)
Theorem signedPreKey_lifecycle (st : Store) (keyId : KeyId) (kp : KeyPairType) :
  (storeSignedPreKey keyId (ofKeyPair kp) ;; loadSignedPreKey keyId) st
  = (Return (ofKeyPair kp),
     <[STORE_PREFIX.SIGNED_KEY +:+ keyIdToString keyId := ofKeyPair kp]> st)
  ∧ (removeSignedPreKey keyId ;; loadSignedPreKey keyId) st
    = (Return JUndefined, delete (STORE_PREFIX.SIGNED_KEY +:+ keyIdToString keyId) st)
  ∧ (removePreKey keyId ;; loadPreKey keyId) st
    = (Return JUndefined, delete (STORE_PREFIX.PREKEY +:+ keyIdToString keyId) st).
Proof.
  split_and!.
  - unfold bind at 1, storeSignedPreKey. rewrite put_present by done.
    unfold loadSignedPreKey. by rewrite bind_get, lookup_insert_eq.
  - unfold bind at 1, removeSignedPreKey. rewrite remove_present.
    unfold loadSignedPreKey. by rewrite bind_get, lookup_delete_eq.
  - unfold bind at 1, removePreKey. rewrite remove_present.
    unfold loadPreKey. by rewrite bind_get, lookup_delete_eq.
Qed.

(** A session record, any string and the empty one too, comes back as it
    was stored; after [removeSession] the session is reported as absent;
    and a stored value that is no string (a byte buffer, say) is accepted
    by [storeSession] and then refused by [loadSession]. *)
Theorem session_lifecycle (st : Store) (identifier record : string) (bytes : ArrayBuffer) :
  (storeSession identifier (JString record) ;; loadSession identifier) st
  = (Return (JString record), <[STORE_PREFIX.SESSION +:+ identifier := JString record]> st)
  ∧ (removeSession identifier ;; loadSession identifier) st
    = (Return JUndefined, delete (STORE_PREFIX.SESSION +:+ identifier) st)
  ∧ (storeSession identifier (JArrayBuffer bytes) ;; loadSession identifier) st
    = (Throw {| message := "Session record must be a string" |},
       <[STORE_PREFIX.SESSION +:+ identifier := JArrayBuffer bytes]> st).
Proof.
  split_and!.
  - unfold bind at 1, storeSession. rewrite put_present by done.
    unfold loadSession. by rewrite bind_get, lookup_insert_eq.
  - unfold bind at 1, removeSession. rewrite remove_present.
    unfold loadSession. by rewrite bind_get, lookup_delete_eq.
  - unfold bind at 1, storeSession. rewrite put_present by done.
    unfold loadSession. by rewrite bind_get, lookup_insert_eq.
Qed.

(** The writes check nothing but null: [storePreKey] and
    [storeSignedPreKey] fail, with [InvalidArgument], exactly when the value
    is [null] or [undefined], and store every other value. A stored value
    that is truthy and no key pair is found out only by the read, which
    fails with [CorruptState]. *)
Theorem typed_writes_unchecked (st : Store) (keyId : KeyId) (v : JsValue) :
  (failsWith InvalidArgument (storePreKey keyId v st) ↔ isNullish v = true)
  ∧ (failsWith InvalidArgument (storeSignedPreKey keyId v st) ↔ isNullish v = true)
  ∧ (isNullish v = false →
     storePreKey keyId v st
     = (Return tt, <[STORE_PREFIX.PREKEY +:+ keyIdToString keyId := v]> st)
     ∧ storeSignedPreKey keyId v st
       = (Return tt, <[STORE_PREFIX.SIGNED_KEY +:+ keyIdToString keyId := v]> st))
  ∧ (truthy v = true → isKeyPairType v = false →
     failsWith CorruptState ((storePreKey keyId v ;; loadPreKey keyId) st)
     ∧ failsWith CorruptState ((storeSignedPreKey keyId v ;; loadSignedPreKey keyId) st)).
Proof.
  split_and!.
  - unfold storePreKey. rewrite put_fails_iff. unfold isNullKey.
    split; [by intros [[? | ?] | ?] | by right].
  - unfold storeSignedPreKey. rewrite put_fails_iff. unfold isNullKey.
    split; [by intros [[? | ?] | ?] | by right].
  - intros Hv. unfold storePreKey, storeSignedPreKey. by rewrite !put_present.
  - intros Ht Hshape. pose proof (truthy_not_nullish v Ht) as Hv. split.
    + unfold bind at 1, storePreKey. rewrite put_present by done.
      unfold loadPreKey. rewrite bind_get, lookup_insert_eq.
      apply guarded_read_rejects; [done | done | by right; right; left].
    + unfold bind at 1, storeSignedPreKey. rewrite put_present by done.
      unfold loadSignedPreKey. rewrite bind_get, lookup_insert_eq.
      apply guarded_read_rejects; [done | done | by do 4 right; left].
Qed.

Lemma typed_writes_unchecked_witness :
  failsWith CorruptState
    ((storePreKey (KeyIdNumber 7) (JString "not a key pair") ;; loadPreKey (KeyIdNumber 7))
       newStore)
  ∧ storePreKey (KeyIdNumber 7) (JNumber 0) newStore
    = (Return tt, <["Sylens-KeypreKey7" := JNumber 0]> newStore).
Proof.
  pose proof (typed_writes_unchecked newStore (KeyIdNumber 7) (JString "not a key pair"))
    as (_ & _ & _ & Hread).
  pose proof (typed_writes_unchecked newStore (KeyIdNumber 7) (JNumber 0))
    as (_ & _ & Hwrite & _).
  split.
  - apply Hread; reflexivity.
  - apply Hwrite. reflexivity.
Defined.

(** ** Identity keys, at the edges *)

(** The identifier of [isTrustedIdentity] is checked after it has been
    used: for [null] and for [undefined] the call fails with
    [InvalidArgument], and has by then deleted the entry under the identity
    prefix followed by the text ["null"], respectively ["undefined"]. *)
Theorem isTrustedIdentity_null_identifier (st : Store) (identityKey : Nullable ArrayBuffer)
    (direction : Direction) :
  failsWith InvalidArgument (isTrustedIdentity Null identityKey direction st)
  ∧ (isTrustedIdentity Null identityKey direction st).2 = delete "identityKeynull" st
  ∧ failsWith InvalidArgument (isTrustedIdentity Undefined identityKey direction st)
  ∧ (isTrustedIdentity Undefined identityKey direction st).2
    = delete "identityKeyundefined" st.
Proof.
  split_and!; [| done | | done].
  - eexists. split; [done | by left].
  - eexists. split; [done | by left].
Qed.

(** The identity prefix alone is the key of the local identity key pair,
    so the empty identifier names that entry. With a key pair stored,
    [loadIdentityKey] of the empty identifier fails with [CorruptState],
    and [isTrustedIdentity] of the empty identifier deletes the key pair:
    [getIdentityKeyPair] then reports none. *)
Theorem empty_identifier_is_identity_key_pair (st : Store) (kp : KeyPairType)
    (identityKey : Nullable ArrayBuffer) (direction : Direction) :
  st !! STORE_PREFIX.IDENTITY = Some (ofKeyPair kp) →
  getIdentityKeyPair st = (Return (ofKeyPair kp), st)
  ∧ failsWith CorruptState (loadIdentityKey (Present "") st)
  ∧ (isTrustedIdentity (Present "") identityKey direction ;; getIdentityKeyPair) st
    = (Return JUndefined, delete STORE_PREFIX.IDENTITY st).
Proof.
  intros Hst. split_and!.
  - unfold getIdentityKeyPair. by rewrite bind_get, Hst.
  - rewrite loadIdentityKey_present. change (STORE_PREFIX.IDENTITY +:+ "") with "identityKey".
    change STORE_PREFIX.IDENTITY with "identityKey" in Hst. rewrite Hst.
    eexists. split; [done | by left].
  - unfold bind at 1. rewrite isTrustedIdentity_present.
    change (STORE_PREFIX.IDENTITY +:+ "") with STORE_PREFIX.IDENTITY.
    unfold getIdentityKeyPair. by rewrite bind_get, lookup_delete_eq.
Qed.

Lemma empty_identifier_is_identity_key_pair_witness :
  let kp := {| pubKey := exampleBytes [1; 2; 3]; privKey := exampleBytes [4; 5; 6] |} in
  let st : Store := {[ "identityKey" := ofKeyPair kp ]} in
  getIdentityKeyPair st = (Return (ofKeyPair kp), st)
  ∧ failsWith CorruptState (loadIdentityKey (Present "") st)
  ∧ (isTrustedIdentity (Present "") (Present (exampleBytes [7])) SENDING ;; getIdentityKeyPair) st
    = (Return JUndefined, delete STORE_PREFIX.IDENTITY st).
Proof.
  intros kp st.
  apply (empty_identifier_is_identity_key_pair st kp (Present (exampleBytes [7])) SENDING).
  reflexivity.
Defined.

(** ** Sessions of a peer *)

Lemma startsWith_app (p t : string) : startsWith (p +:+ t) p = true.
Proof.
  unfold startsWith. induction p as [|a p IH]; [by destruct t |].
  rewrite string_app_cons. cbn [String.prefix].
  by destruct (ascii_dec a a).
Qed.

Lemma removeAllSessions_unfold (root : string) (st : Store) :
  removeAllSessions root st = (Return tt, (removeAllSessions root st).2).
Proof. reflexivity. Qed.

Lemma removeAllSessions_idem (root : string) (st : Store) :
  (removeAllSessions root (removeAllSessions root st).2).2 = (removeAllSessions root st).2.
Proof.
  apply map_eq. intros key. rewrite !removeAllSessions_lookup.
  by destruct (startsWith key _).
Qed.

(** After [removeAllSessions] of a root address, [loadSession] reports no
    session for any identifier that begins with the root: the devices of
    the peer, and every peer whose name merely begins with the same
    characters. Doing it twice is doing it once, and [removeSession]
    removes the session of its identifier and no other. *)
Theorem removeAllSessions_loadSession (st : Store) (root suffix identifier other : string) :
  (removeAllSessions root ;; loadSession (root +:+ suffix)) st
  = (Return JUndefined, (removeAllSessions root st).2)
  ∧ (removeAllSessions root ;; removeAllSessions root) st = removeAllSessions root st
  ∧ (∀ any : string,
       (removeAllSessions "" ;; loadSession any) st = (Return JUndefined, (removeAllSessions "" st).2))
  ∧ (identifier ≠ other →
     (loadSession other (removeSession identifier st).2).1 = (loadSession other st).1).
Proof.
  assert (∀ r t, (removeAllSessions r ;; loadSession (r +:+ t)) st
                 = (Return JUndefined, (removeAllSessions r st).2)) as Hload.
  { intros r t.
    change ((removeAllSessions r ;; loadSession (r +:+ t)) st)
      with (loadSession (r +:+ t) (removeAllSessions r st).2).
    unfold loadSession. rewrite bind_get, removeAllSessions_lookup.
    rewrite <- string_app_assoc. by rewrite startsWith_app. }
  split_and!.
  - apply Hload.
  - change ((removeAllSessions root ;; removeAllSessions root) st)
      with (removeAllSessions root (removeAllSessions root st).2).
    rewrite (removeAllSessions_unfold root (removeAllSessions root st).2).
    rewrite removeAllSessions_idem. symmetry. apply removeAllSessions_unfold.
  - intros any. apply (Hload "" any).
  - intros Hne. apply (reads_depend_on_entry _ _ (KeyIdNumber 0) other).
    unfold removeSession. rewrite remove_present. cbn [snd].
    apply lookup_delete_ne. intros Heq. by apply (inj _) in Heq.
Qed.

Lemma removeAllSessions_loadSession_witness :
  let st : Store := {[ "sessionbob.1" := JString "a"; "sessionbobby.1" := JString "b" ]} in
  (loadSession "bobby.1" (removeSession "bob.1" st).2).1 = (loadSession "bobby.1" st).1
  ∧ (removeAllSessions "bob" ;; loadSession ("bob" +:+ "by.1")) st
    = (Return JUndefined, (removeAllSessions "bob" st).2).
Proof.
  intros st.
  pose proof (removeAllSessions_loadSession st "bob" "by.1" "bob.1" "bobby.1")
    as (Hover & _ & _ & Hone).
  split; [apply Hone; discriminate | exact Hover].
Defined.

(** ** Key ids *)





(** ** What the methods keep *)

(** The reads write nothing: [getIdentityKeyPair],
    [getLocalRegistrationId], [loadPreKey], [loadSignedPreKey],
    [loadSession], [loadIdentityKey] and [get] leave the store as it is,
    whether they return or throw, for a null identifier too. *)
Theorem reads_leave_store (st : Store) (keyId : KeyId) (identifier : string)
    (key : Nullable string) (d : JsValue) :
  (getIdentityKeyPair st).2 = st
  ∧ (getLocalRegistrationId st).2 = st
  ∧ (loadPreKey keyId st).2 = st
  ∧ (loadSignedPreKey keyId st).2 = st
  ∧ (loadSession identifier st).2 = st
  ∧ (loadIdentityKey key st).2 = st
  ∧ (get key d st).2 = st.
Proof.
  split_and!.
  - unfold getIdentityKeyPair. rewrite bind_get. by case_ifs.
  - unfold getLocalRegistrationId. rewrite bind_get. by case_ifs.
  - unfold loadPreKey. rewrite bind_get. by case_ifs.
  - unfold loadSignedPreKey. rewrite bind_get. by case_ifs.
  - unfold loadSession. rewrite bind_get. by case_ifs.
  - destruct key as [| |k]; [done | done |].
    rewrite loadIdentityKey_present. cbn zeta. by case_ifs.
  - destruct key as [| |k]; [done | done |]. by rewrite get_present.
Qed.

Lemma noNullishEntries_insert (st : Store) (k : string) (v : JsValue) :
  noNullishEntries st → isNullish v = false → noNullishEntries (<[k := v]> st).
Proof.
  intros Hst Hv k' v'. destruct (decide (k = k')) as [<- | Hne].
  - rewrite lookup_insert_eq. by intros [= <-].
  - rewrite lookup_insert_ne by done. apply Hst.
Qed.

Lemma noNullishEntries_delete (st : Store) (k : string) :
  noNullishEntries st → noNullishEntries (delete k st).
Proof.
  intros Hst k' v'. destruct (decide (k = k')) as [<- | Hne].
  - by rewrite lookup_delete_eq.
  - rewrite lookup_delete_ne by done. apply Hst.
Qed.

Lemma noNullishEntries_put (st : Store) (key : Nullable string) (v : JsValue) :
  noNullishEntries st → noNullishEntries (put key v st).2.
Proof.
  intros Hst. destruct key as [| |k]; [done | done |].
  rewrite put_store. destruct (isNullish v) eqn:Hv; [done |].
  by apply noNullishEntries_insert.
Qed.

Lemma noNullishEntries_remove (st : Store) (key : Nullable string) :
  noNullishEntries st → noNullishEntries (remove key st).2.
Proof.
  intros Hst. destruct key as [| |k]; [done | done |].
  by apply noNullishEntries_delete.
Qed.

(** No method ever leaves [null] or [undefined] in the store: the new
    store has no such entry, and [put], [remove], the typed writes and
    removals, [removeAllSessions] and [isTrustedIdentity] keep it so,
    whatever their arguments. In such a store [get] with the default
    [undefined] returns [undefined] exactly for the keys that are not
    set. *)
Theorem noNullishEntries_kept (st : Store) (key : Nullable string) (v : JsValue)
    (keyId : KeyId) (identifier : string) (identityKey : Nullable ArrayBuffer)
    (direction : Direction) :
  noNullishEntries st →
  noNullishEntries newStore
  ∧ noNullishEntries (put key v st).2
  ∧ noNullishEntries (remove key st).2
  ∧ noNullishEntries (storePreKey keyId v st).2
  ∧ noNullishEntries (storeSignedPreKey keyId v st).2
  ∧ noNullishEntries (storeSession identifier v st).2
  ∧ noNullishEntries (removePreKey keyId st).2
  ∧ noNullishEntries (removeSignedPreKey keyId st).2
  ∧ noNullishEntries (removeSession identifier st).2
  ∧ noNullishEntries (removeAllSessions identifier st).2
  ∧ noNullishEntries (isTrustedIdentity key identityKey direction st).2
  ∧ (∀ k : string, get (Present k) JUndefined st = (Return JUndefined, st) ↔ st !! k = None).
Proof.
  intros Hst. split_and!.
  - intros k v'. unfold newStore. by rewrite lookup_empty.
  - by apply noNullishEntries_put.
  - by apply noNullishEntries_remove.
  - by apply noNullishEntries_put.
  - by apply noNullishEntries_put.
  - by apply noNullishEntries_put.
  - by apply noNullishEntries_remove.
  - by apply noNullishEntries_remove.
  - by apply noNullishEntries_remove.
  - intros k v'. rewrite removeAllSessions_lookup.
    destruct (startsWith k _); [done | apply Hst].
  - destruct key as [| |k].
    + by apply noNullishEntries_delete.
    + by apply noNullishEntries_delete.
    + rewrite isTrustedIdentity_present. by apply noNullishEntries_delete.
  - intros k. rewrite get_present. destruct (st !! k) as [v'|] eqn:Hk; simpl.
    + split; [| done]. intros [= ->]. by apply Hst in Hk.
    + done.
Qed.

Lemma noNullishEntries_kept_witness :
  noNullishEntries (put (Present "a") JNull newStore).2
  ∧ noNullishEntries (storeSession "bob.1" (JString "record") newStore).2.
Proof.
  assert (noNullishEntries newStore) as Hnew.
  { intros k v. unfold newStore. rewrite lookup_empty. discriminate. }
  pose proof (noNullishEntries_kept newStore (Present "a") JNull (KeyIdNumber 1) "bob.1"
                Null SENDING Hnew) as (_ & Hput & _).
  pose proof (noNullishEntries_kept newStore (Present "a") (JString "record") (KeyIdNumber 1)
                "bob.1" Null SENDING Hnew) as (_ & _ & _ & _ & _ & Hsession & _).
  split; [exact Hput | exact Hsession].
Defined.

(** ** The orchestration layer *)

(** [initialize] never throws on a bundle, and writes four entries: the
    identity key pair, the registration id, the pre-key pair and the
    signed pre-key pair; the signature of the signed pre-key is not
    stored. After it each of the four reads returns what the bundle
    holds, also when the registration id is 0 and when the pre-key and
    the signed pre-key have the same id. *)
Theorem initialize_then_reads (st : Store) (ourBundle : PreKeyBundle) :
  let preKeyId := KeyIdNumber (preKey_keyId (preKey ourBundle)) in
  let signedPreKeyId := KeyIdNumber (signedPreKey_keyId (signedPreKey ourBundle)) in
  let st' : Store :=
    <[STORE_PREFIX.SIGNED_KEY +:+ keyIdToString signedPreKeyId
        := ofKeyPair (signedPreKey_keyPair (signedPreKey ourBundle))]>
      (<[STORE_PREFIX.PREKEY +:+ keyIdToString preKeyId
           := ofKeyPair (preKey_keyPair (preKey ourBundle))]>
         (<["registrationId" := JNumber (registrationId ourBundle)]>
            (<["identityKey" := ofKeyPair (identityKeyPair ourBundle)]> st))) in
  initialize ourBundle st = (Return tt, st')
  ∧ getIdentityKeyPair st' = (Return (ofKeyPair (identityKeyPair ourBundle)), st')
  ∧ getLocalRegistrationId st' = (Return (JNumber (registrationId ourBundle)), st')
  ∧ loadPreKey preKeyId st' = (Return (ofKeyPair (preKey_keyPair (preKey ourBundle))), st')
  ∧ loadSignedPreKey signedPreKeyId st'
    = (Return (ofKeyPair (signedPreKey_keyPair (signedPreKey ourBundle))), st').
Proof.
  intros preKeyId signedPreKeyId st'.
  pose proof (registrationId_apart (keyIdToString preKeyId)) as (Hr1 & _).
  pose proof (registrationId_apart (keyIdToString signedPreKeyId)) as (_ & Hr2 & _).
  pose proof (prekey_identity_apart (keyIdToString preKeyId) "") as Hi1.
  pose proof (signed_key_identity_apart (keyIdToString signedPreKeyId) "") as Hi2.
  pose proof (prekey_signed_key_apart (keyIdToString preKeyId) (keyIdToString signedPreKeyId))
    as Hps.
  split_and!.
  - unfold initialize, storePreKey, storeSignedPreKey.
    unfold bind. by rewrite !put_present.
  - unfold getIdentityKeyPair. rewrite bind_get. subst st'.
    rewrite lookup_insert_ne by done. rewrite lookup_insert_ne by done.
    rewrite lookup_insert_ne by done. by rewrite lookup_insert_eq.
  - unfold getLocalRegistrationId. rewrite bind_get. subst st'.
    rewrite lookup_insert_ne by done. rewrite lookup_insert_ne by done.
    by rewrite lookup_insert_eq.
  - unfold loadPreKey. rewrite bind_get. subst st'.
    rewrite lookup_insert_ne by done. by rewrite lookup_insert_eq.
  - unfold loadSignedPreKey. rewrite bind_get. subst st'.
    by rewrite lookup_insert_eq.
Qed.

Section DecodeProperties.
Variable decryptPreKeyWhisperMessage : ArrayBuffer → M ArrayBuffer.
Variable decryptWhisperMessage : ArrayBuffer → M ArrayBuffer.
Variable textDecode : list byte → string.

(** [decode] hands a message of type 3 to the pre-key decryption and one
    of type 1 to the ordinary decryption, and decodes the plain text that
    comes back; for every other type it throws the error that names the
    type, without calling the cipher and without a change to the store. *)
Theorem decode_dispatch (st : Store) (message : Message) :
  (type message = 3%Z →
   decode decryptPreKeyWhisperMessage decryptWhisperMessage textDecode message st
   = (let* plaintext := decryptPreKeyWhisperMessage (body message) in
      ret (textDecode plaintext)) st)
  ∧ (type message = 1%Z →
     decode decryptPreKeyWhisperMessage decryptWhisperMessage textDecode message st
     = (let* plaintext := decryptWhisperMessage (body message) in
        ret (textDecode plaintext)) st)
  ∧ (type message ≠ 3%Z → type message ≠ 1%Z →
     decode decryptPreKeyWhisperMessage decryptWhisperMessage textDecode message st
     = (Throw {| message := "Unknown message type: " +:+ toString (JNumber (type message)) |},
        st)).
Proof.
  unfold decode. split_and!.
  - by intros ->.
  - by intros ->.
  - intros H3 H1.
    destruct (Z.eqb_spec (type message) 3) as [? | _]; [done |].
    by destruct (Z.eqb_spec (type message) 1) as [? | _].
Qed.
End DecodeProperties.

Lemma decode_dispatch_witness :
  decode (λ _, throw "no session") (λ body, ret body) fromCharCode
    {| type := 2; body := exampleBytes [1] |} newStore
  = (Throw {| message := "Unknown message type: 2" |}, newStore)
  ∧ decode (λ _, throw "no session") (λ body, ret body) fromCharCode
      {| type := 1; body := exampleBytes [104; 105] |} newStore
    = (Return "hi", newStore).
Proof.
  split.
  - apply (decode_dispatch (λ _, throw "no session") (λ body, ret body) fromCharCode newStore
             {| type := 2; body := exampleBytes [1] |}); simpl; lia.
  - pose proof (decode_dispatch (λ _, throw "no session") (λ body, ret body) fromCharCode
                  newStore {| type := 1; body := exampleBytes [104; 105] |}) as (_ & H1 & _).
    rewrite H1; reflexivity.
Defined.

(** ** Identity commitment, at the edges *)

Section SaveIdentityEdges.
Context {SignalProtocolAddress : Type}.
Variable fromString : string → Completion SignalProtocolAddress.
Variable getName : SignalProtocolAddress → string.

(** How [saveIdentity] fails, and what it keeps. A null identifier or key
    fails with [InvalidArgument]; an identifier the parser refuses fails
    with the parser's error; a recorded value that is truthy and no byte
    buffer fails with [CorruptState]: in all three the store is left as it
    is. A recorded value that is falsy (0, the empty string) is
    overwritten and no replacement is reported. And whatever the
    arguments, no [null] or [undefined] entry appears in the store. *)
Theorem saveIdentity_failures (st : Store) (identifier : Nullable string)
    (identityKey : Nullable ArrayBuffer) (id : string) (bytes : ArrayBuffer)
    (address : SignalProtocolAddress) (e : Error) (existing : JsValue) :
  (isNullKey identifier ∨ isNullish (bufferArg identityKey) = true →
   failsWith InvalidArgument (saveIdentity fromString getName identifier identityKey st)
   ∧ (saveIdentity fromString getName identifier identityKey st).2 = st)
  ∧ (fromString id = Throw e →
     saveIdentity fromString getName (Present id) (Present bytes) st = (Throw e, st))
  ∧ (fromString id = Return address →
     st !! (STORE_PREFIX.IDENTITY +:+ getName address) = Some existing →
     truthy existing = true → isArrayBuffer existing = false →
     saveIdentity fromString getName (Present id) (Present bytes) st
     = (Throw {| message := "Existing identity key has invalid format" |}, st))
  ∧ (fromString id = Return address →
     st !! (STORE_PREFIX.IDENTITY +:+ getName address) = Some existing →
     truthy existing = false →
     saveIdentity fromString getName (Present id) (Present bytes) st
     = (Return false, <[STORE_PREFIX.IDENTITY +:+ getName address := JArrayBuffer bytes]> st))
  ∧ (noNullishEntries st →
     noNullishEntries (saveIdentity fromString getName identifier identityKey st).2).
Proof.
  split_and!.
  - intros Hnull.
    assert (saveIdentity fromString getName identifier identityKey st
            = (Throw {| message := "Key and value cannot be null or undefined" |}, st)) as ->.
    { unfold saveIdentity, bind, validateKeyValue.
      destruct Hnull as [[-> | ->] | Hv]; [done | done |].
      destruct identifier; [done | done |]. by rewrite Hv. }
    split; [| done]. eexists. split; [done | by right].
  - intros Hparse. unfold saveIdentity.
    unfold bind at 1. cbn [validateKeyValue bufferArg ofNullable isNullish ret].
    unfold bind at 1, lift. by rewrite Hparse.
  - intros Hparse Hst Ht Hbuf. rewrite (saveIdentity_present _ _ _ _ address) by done.
    cbn zeta. rewrite Hst. simpl. by rewrite Ht, Hbuf.
  - intros Hparse Hst Hf. rewrite (saveIdentity_present _ _ _ _ address) by done.
    cbn zeta. rewrite Hst. simpl. by rewrite Hf.
  - intros Hinv. destruct identifier as [| |id']; [done | done |].
    destruct identityKey as [| |bytes']; [done | done |].
    destruct (fromString id') as [address' | e'] eqn:Hparse.
    + rewrite (saveIdentity_present _ _ _ _ address') by done. cbn zeta.
      destruct (truthy _ && negb (isArrayBuffer _)); [done |].
      by apply noNullishEntries_insert.
    + unfold saveIdentity.
      unfold bind at 1. cbn [validateKeyValue bufferArg ofNullable isNullish ret].
      unfold bind at 1, lift. by rewrite Hparse.
Qed.

(** The check undoes the detection of a changed key. When a key is saved
    for an address, [isTrustedIdentity] is asked about the address's name
    (as the library's session builder asks), and a different key is then
    saved for the address, the second [saveIdentity] returns false: the
    check has deleted the recorded key, so there is nothing to compare
    with. Without the check in between it returns true. *)
Theorem saveIdentity_change_undetected (st : Store) (id : string)
    (address : SignalProtocolAddress) (k1 k2 : ArrayBuffer) (direction : Direction) :
  fromString id = Return address →
  identityEntryTyped st (STORE_PREFIX.IDENTITY +:+ getName address) →
  k1 ≠ k2 →
  let key := STORE_PREFIX.IDENTITY +:+ getName address in
  (saveIdentity fromString getName (Present id) (Present k1) ;;
   isTrustedIdentity (Present (getName address)) (Present k2) direction ;;
   saveIdentity fromString getName (Present id) (Present k2)) st
  = (Return false, <[key := JArrayBuffer k2]> st)
  ∧ (saveIdentity fromString getName (Present id) (Present k1) ;;
     saveIdentity fromString getName (Present id) (Present k2)) st
    = (Return true, <[key := JArrayBuffer k2]> st).
Proof.
  intros Hparse Htyped Hne key. subst key. split.
  - unfold bind at 1. rewrite (saveIdentity_typed _ _ _ _ address) by done.
    unfold bind at 1. rewrite isTrustedIdentity_present.
    rewrite (saveIdentity_typed _ _ _ _ address);
      [| done | left; apply lookup_delete_eq].
    by rewrite lookup_delete_eq, delete_insert_eq, insert_delete_eq.
  - unfold bind at 1. rewrite (saveIdentity_typed _ _ _ _ address) by done.
    rewrite (saveIdentity_typed _ _ _ _ address);
      [| done | right; exists k1; apply lookup_insert_eq].
    rewrite lookup_insert_eq, insert_insert_eq.
    by rewrite bool_decide_eq_false_2.
Qed.

(** An address whose name is empty shares its entry with the local
    identity key pair. With a key pair stored, [saveIdentity] for such an
    address fails with [CorruptState] and stores nothing; with none
    stored it records the peer's key in that entry, and
    [getIdentityKeyPair] then fails with [CorruptState]. *)
Theorem saveIdentity_empty_name (st : Store) (id : string) (address : SignalProtocolAddress)
    (bytes : ArrayBuffer) :
  fromString id = Return address → getName address = "" →
  (∀ kp : KeyPairType, st !! STORE_PREFIX.IDENTITY = Some (ofKeyPair kp) →
     saveIdentity fromString getName (Present id) (Present bytes) st
     = (Throw {| message := "Existing identity key has invalid format" |}, st))
  ∧ (st !! STORE_PREFIX.IDENTITY = None →
     (saveIdentity fromString getName (Present id) (Present bytes) ;; getIdentityKeyPair) st
     = (Throw {| message := "Stored identity key has invalid format" |},
        <[STORE_PREFIX.IDENTITY := JArrayBuffer bytes]> st)).
Proof.
  intros Hparse Hname. split.
  - intros kp Hst. rewrite (saveIdentity_present _ _ _ _ address) by done.
    cbn zeta. rewrite Hname. change (STORE_PREFIX.IDENTITY +:+ "") with STORE_PREFIX.IDENTITY.
    by rewrite Hst.
  - intros Hst. unfold bind at 1. rewrite (saveIdentity_present _ _ _ _ address) by done.
    cbn zeta. rewrite Hname. change (STORE_PREFIX.IDENTITY +:+ "") with STORE_PREFIX.IDENTITY.
    rewrite Hst. simpl. unfold getIdentityKeyPair.
    by rewrite bind_get, lookup_insert_eq.
Qed.
End SaveIdentityEdges.

Lemma saveIdentity_failures_witness :
  saveIdentity exampleFromString addressName (Present "bob") (Present (exampleBytes [1]))
    newStore
  = (Throw {| message := "Invalid SignalProtocolAddress string: bob" |}, newStore)
  ∧ saveIdentity exampleFromString addressName (Present "bob.1") (Present (exampleBytes [1]))
      {[ "identityKeybob" := JString "oops" ]}
    = (Throw {| message := "Existing identity key has invalid format" |},
       {[ "identityKeybob" := JString "oops" ]})
  ∧ saveIdentity exampleFromString addressName (Present "bob.1") (Present (exampleBytes [1]))
      {[ "identityKeybob" := JNumber 0 ]}
    = (Return false,
       <["identityKeybob" := JArrayBuffer (exampleBytes [1])]> {[ "identityKeybob" := JNumber 0 ]})
  ∧ failsWith InvalidArgument
      (saveIdentity exampleFromString addressName Null (Present (exampleBytes [1])) newStore).
Proof.
  split_and!.
  - apply (saveIdentity_failures exampleFromString addressName newStore Null Null "bob"
             (exampleBytes [1]) {| addressName := ""; addressDevice := "" |}
             {| message := "Invalid SignalProtocolAddress string: bob" |} JNull).
    reflexivity.
  - apply (saveIdentity_failures exampleFromString addressName
             {[ "identityKeybob" := JString "oops" ]} Null Null "bob.1"
             (exampleBytes [1]) {| addressName := "bob"; addressDevice := "1" |}
             {| message := "" |} (JString "oops")); reflexivity.
  - apply (saveIdentity_failures exampleFromString addressName
             {[ "identityKeybob" := JNumber 0 ]} Null Null "bob.1"
             (exampleBytes [1]) {| addressName := "bob"; addressDevice := "1" |}
             {| message := "" |} (JNumber 0)); reflexivity.
  - apply (saveIdentity_failures exampleFromString addressName newStore Null
             (Present (exampleBytes [1])) "bob" (exampleBytes [1])
             {| addressName := ""; addressDevice := "" |} {| message := "" |} JNull).
    left. left. reflexivity.
Defined.

Lemma saveIdentity_change_undetected_witness :
  (saveIdentity exampleFromString addressName (Present "bob.1") (Present (exampleBytes [1])) ;;
   isTrustedIdentity (Present "bob") (Present (exampleBytes [2])) RECEIVING ;;
   saveIdentity exampleFromString addressName (Present "bob.1") (Present (exampleBytes [2])))
    newStore
  = (Return false, <["identityKeybob" := JArrayBuffer (exampleBytes [2])]> newStore)
  ∧ (saveIdentity exampleFromString addressName (Present "bob.1") (Present (exampleBytes [1])) ;;
     saveIdentity exampleFromString addressName (Present "bob.1") (Present (exampleBytes [2])))
      newStore
    = (Return true, <["identityKeybob" := JArrayBuffer (exampleBytes [2])]> newStore).
Proof.
  apply (saveIdentity_change_undetected exampleFromString addressName newStore "bob.1"
           {| addressName := "bob"; addressDevice := "1" |}
           (exampleBytes [1]) (exampleBytes [2]) RECEIVING).
  - reflexivity.
  - left. reflexivity.
  - discriminate.
Defined.

Lemma saveIdentity_empty_name_witness :
  (saveIdentity exampleFromString addressName (Present ".1") (Present (exampleBytes [1])) ;;
   getIdentityKeyPair) newStore
  = (Throw {| message := "Stored identity key has invalid format" |},
     <["identityKey" := JArrayBuffer (exampleBytes [1])]> newStore).
Proof.
  apply (saveIdentity_empty_name exampleFromString addressName newStore ".1"
           {| addressName := ""; addressDevice := "1" |} (exampleBytes [1]));
    reflexivity.
Defined.
